(** * Live Coach: the real-time coaching session pipeline

    A shallow embedding of the [LiveCoach] component (the streaming
    coaching session of the fitness application): the base64 wire codec,
    the 16-bit PCM audio codec, the HUD annotation store with its expiry
    sweep, and the session callbacks ([onopen], [onmessage], [onerror],
    [onclose], [stopSession]).

    Conventions of the embedding:
    - a [Uint8Array] is a [list byte]; an [Int16Array] is a list of
      integers in [-32768, 32767]; a JavaScript "binary string" (all code
      units below 256) is a Rocq [string];
    - audio samples and clock readings are rationals.  Every float
      operation of the codec (scaling by 32768, a power of two, and
      dividing by it) is exact on finite floats, so the rational model
      computes the same values;
    - [Date.now()] is an integer number of milliseconds;
    - exceptions are values of [JsError] returned on the left of a sum;
    - React state and refs are the fields of one [State] record, and the
      external effects a handler issues are appended to a trace. *)

From Stdlib Require Import ZArith QArith Qminmax Qabs Qround Lia Lqa Ascii String List.
From Stdlib.Strings Require Import Byte.
From stdpp Require Import gmap strings list.

Local Open Scope Z_scope.

(** ** Exceptions *)

Inductive JsError : Type :=
  | InvalidCharacterError   (* thrown by [atob] *)
  | RangeError              (* thrown by the typed-array constructors *)
  | NotSupportedError.      (* thrown by [createBuffer] *)

Definition result (A : Type) : Type := (JsError + A)%type.

Definition ok {A : Type} (a : A) : result A := inr a.
Definition throw {A : Type} (e : JsError) : result A := inl e.

Definition bind {A B : Type} (r : result A) (k : A -> result B) : result B :=
  match r with
  | inl e => inl e
  | inr a => k a
  end.

Notation "'let*' x ':=' r 'in' k" := (bind r (fun x => k))
  (at level 10, x name, r at level 100, k at level 200).

(** ** The platform's base64 routines

    [btoa] and [atob] are browser built-ins, not code of the repository.
    They are modelled after their definition in the HTML standard
    (forgiving-base64 encode and decode, RFC 4648 alphabet). *)

Module Base64.

Definition code (c : ascii) : Z := Z.of_N (N_of_ascii c).
Definition char (n : Z) : ascii := ascii_of_N (Z.to_N n).

Definition alphabet : list ascii :=
  list_ascii_of_string
    "ABCDEFGHIJKLMNOPQRSTUVWXYZabcdefghijklmnopqrstuvwxyz0123456789+/".

Definition pad : ascii := "="%char.

Definition sextet_char (n : Z) : ascii := nth (Z.to_nat n) alphabet pad.

Definition char_sextet (c : ascii) : option Z :=
  let k := code c in
  if (65 <=? k) && (k <=? 90) then Some (k - 65)
  else if (97 <=? k) && (k <=? 122) then Some (k - 71)
  else if (48 <=? k) && (k <=? 57) then Some (k + 4)
  else if k =? 43 then Some 62
  else if k =? 47 then Some 63
  else None.

(** The 6-bit groups of a byte sequence, most significant first; a final
    group of one or two bytes is padded with zero bits. *)
Fixpoint sextets (l : list Z) : list Z :=
  match l with
  | [] => []
  | [a] => [a / 4; (a mod 4) * 16]
  | [a; b] =>
      let n := (a * 256 + b) * 4 in
      [n / 4096; (n / 64) mod 64; n mod 64]
  | a :: b :: c :: rest =>
      let n := a * 65536 + b * 256 + c in
      n / 262144 :: (n / 4096) mod 64 :: (n / 64) mod 64 :: n mod 64
        :: sextets rest
  end.

Definition padding (len : nat) : list ascii :=
  match (len mod 3)%nat with
  | 1%nat => [pad; pad]
  | 2%nat => [pad]
  | _ => []
  end.

(** [btoa]: defined on binary strings; the type [string] leaves out the
    strings with a code unit above 255, on which the built-in throws. *)
Definition btoa (s : string) : string :=
  let bytes := map code (list_ascii_of_string s) in
  string_of_list_ascii
    (map sextet_char (sextets bytes) ++ padding (length bytes)).

Definition is_whitespace (c : ascii) : bool :=
  let k := code c in
  (k =? 9) || (k =? 10) || (k =? 12) || (k =? 13) || (k =? 32).

Definition is_pad (c : ascii) : bool := code c =? 61.

(** Removes one or two trailing [=]. *)
Fixpoint drop_padding (l : list ascii) : list ascii :=
  match l with
  | [] => []
  | c :: r =>
      if is_pad c && forallb is_pad r && (length r <=? 1)%nat then []
      else c :: drop_padding r
  end.

(** Bytes of a sequence of 6-bit groups; the left-over 4 or 2 bits of a
    final group of two or three are discarded. *)
Fixpoint unsextets (l : list Z) : list Z :=
  match l with
  | a :: b :: c :: d :: rest =>
      let n := a * 262144 + b * 4096 + c * 64 + d in
      n / 65536 :: (n / 256) mod 256 :: n mod 256 :: unsextets rest
  | [a; b; c] =>
      let n := (a * 4096 + b * 64 + c) / 4 in
      [n / 256; n mod 256]
  | [a; b] => [(a * 64 + b) / 16]
  | _ => []
  end.

Definition atob (s : string) : result string :=
  let data := filter (fun c => is_whitespace c = false) (list_ascii_of_string s) in
  let data :=
    if (length data mod 4 =? 0)%nat then drop_padding data else data in
  if (length data mod 4 =? 1)%nat then throw InvalidCharacterError
  else
    match mapM char_sextet data with
    | None => throw InvalidCharacterError
    | Some sx => ok (string_of_list_ascii (map char (unsextets sx)))
    end.

End Base64.

(** ** Wire codec: [encode] and [decode] *)

(** [String.fromCharCode(bytes[i])] for a byte. *)
Definition fromCharCode (b : byte) : string := String (ascii_of_byte b) EmptyString.

(** [binaryString.charCodeAt(i)] stored into a [Uint8Array] cell. *)
Definition charCodeAt (s : string) (i : nat) : byte :=
  match String.get i s with
  | Some c => byte_of_ascii c
  | None => x00
  end.

(** [decode(base64)]: [atob], then one byte per character, written by
    index into a zero-filled array of the string's length. *)
Definition decode (base64 : string) : result (list byte) :=
  let* binaryString := Base64.atob base64 in
  let len := String.length binaryString in
  ok (foldl (fun bytes i => <[i := charCodeAt binaryString i]> bytes)
        (replicate len x00) (seq 0 len)).

(** [encode(bytes)]: one character per byte appended to [binary], then
    [btoa]. *)
Definition encode (bytes : list byte) : string :=
  let binary := foldl (fun binary b => binary +:+ fromCharCode b) EmptyString bytes in
  Base64.btoa binary.

(** ** Audio codec: [createBlob] and [decodeAudioData] *)

Definition Z_of_byte (b : byte) : Z := Z.of_N (Byte.to_N b).

Definition byte_of_Z (z : Z) : byte :=
  match Byte.of_N (Z.to_N z) with
  | Some b => b
  | None => x00
  end.

(** Truncation of a number towards zero. *)
Definition truncate (x : Q) : Z := Z.quot (Qnum x) (Z.pos (Qden x)).

(** Storing a number into an [Int16Array] cell: truncate, reduce modulo
    2^16, and read the 16 bits as a signed integer. *)
Definition ToInt16 (x : Q) : Z :=
  let m := truncate x mod 65536 in
  if 32768 <=? m then m - 65536 else m.

(** [new Uint8Array(int16.buffer)]: the bytes of a 16-bit array, low byte
    first (typed arrays use the byte order of the platform, little-endian
    on every platform the application runs on). *)
Definition bytes_of_int16 (int16 : list Z) : list byte :=
  flat_map (fun v => let u := v mod 65536 in
                     [byte_of_Z (u mod 256); byte_of_Z (u / 256)]) int16.

Fixpoint int16_pairs (data : list byte) : list Z :=
  match data with
  | lo :: hi :: rest =>
      let u := Z_of_byte lo + 256 * Z_of_byte hi in
      (if 32768 <=? u then u - 65536 else u) :: int16_pairs rest
  | _ => []
  end.

(** [new Int16Array(data.buffer)]: a view of the whole buffer, refused
    when its byte length is not a multiple of 2. *)
Definition Int16Array_of_buffer (data : list byte) : result (list Z) :=
  if (length data mod 2 =? 0)%nat then ok (int16_pairs data)
  else throw RangeError.

Record Blob : Type := mkBlob { blob_data : string; mimeType : string }.

Definition createBlob (data : list Q) : Blob :=
  let l := length data in
  let int16 :=
    foldl (fun int16 i => <[i := ToInt16 (nth i data 0%Q * 32768)]> int16)
      (replicate l 0) (seq 0 l) in
  {| blob_data := encode (bytes_of_int16 int16);
     mimeType := "audio/pcm;rate=16000" |}.

Record AudioBuffer : Type := mkAudioBuffer {
  numberOfChannels : nat;
  buffer_length : nat;
  sampleRate : Z;
  channels : list (list Q)
}.

Definition duration (b : AudioBuffer) : Q :=
  (inject_Z (Z.of_nat (buffer_length b)) / inject_Z (sampleRate b))%Q.

(** [ctx.createBuffer(numChannels, frameCount, sampleRate)] of the Web
    Audio API: the frame count is converted to an integer by truncation,
    the buffer is zero-filled, and a zero channel count or length is
    refused.  Limits of an implementation (largest channel count, range
    of rates, memory) are not modelled. *)
Definition createBuffer (numChannels : nat) (frameCount : Q) (rate : Z)
  : result AudioBuffer :=
  let frames := Z.to_nat (truncate frameCount) in
  if (numChannels =? 0)%nat || (frames =? 0)%nat then throw NotSupportedError
  else ok {| numberOfChannels := numChannels;
             buffer_length := frames;
             sampleRate := rate;
             channels := replicate numChannels (replicate frames 0%Q) |}.

(** [channelData[i] = v] on the live view [buffer.getChannelData(channel)];
    a write past the end of a typed array is ignored. *)
Definition setChannelSample (channel i : nat) (v : Q) (b : AudioBuffer) : AudioBuffer :=
  {| numberOfChannels := numberOfChannels b;
     buffer_length := buffer_length b;
     sampleRate := sampleRate b;
     channels := alter (fun channelData => <[i := v]> channelData) channel (channels b) |}.

Definition decodeAudioData (data : list byte) (rate : Z) (numChannels : nat)
  : result AudioBuffer :=
  let* dataInt16 := Int16Array_of_buffer data in
  let frameCount :=
    (inject_Z (Z.of_nat (length dataInt16)) / inject_Z (Z.of_nat numChannels))%Q in
  let* buffer := createBuffer numChannels frameCount rate in
  (* the loop [for (i = 0; i < frameCount; i++)] runs for every natural
     number below the (possibly fractional) frame count *)
  let iterations := Z.to_nat (Qceiling frameCount) in
  ok (foldl (fun buffer channel =>
        foldl (fun buffer i =>
          setChannelSample channel i
            (inject_Z (nth (i * numChannels + channel)%nat dataInt16 0%Z) / 32768)%Q
            buffer)
          buffer (seq 0 iterations))
        buffer (seq 0 numChannels)).

(** ** HUD annotation store *)

Record HighlightData : Type := mkHighlight {
  status : string;
  feedback : string;
  lastUpdated : Z
}.

(** The state updater of a tool call: [{...prev, [part]: {status,
    feedback, lastUpdated: Date.now()}}]. *)
Definition upsert (part status feedback : string) (now : Z)
    (prev : gmap string HighlightData) : gmap string HighlightData :=
  <[part := mkHighlight status feedback now]> prev.

(** One iteration of [for (const part in next)] in the expiry sweep. *)
Definition sweep_visit (now : Z) (acc : gmap string HighlightData * bool)
    (part : string) : gmap string HighlightData * bool :=
  match acc.1 !! part with
  | Some data =>
      if 7000 <? now - lastUpdated data then (delete part acc.1, true) else acc
  | None => acc
  end.

(** The state updater of the expiry timer: copy, delete the stale
    entries, and keep the previous object when nothing changed. *)
Definition sweep (now : Z) (prev : gmap string HighlightData)
    : gmap string HighlightData :=
  let '(next, changed) :=
    foldl (sweep_visit now) (prev, false) (map_to_list prev).*1 in
  if changed then next else prev.

(** ** Messages of the streaming channel *)

Record Part : Type := mkPart { inlineData : option string }.

Record FunctionCall : Type := mkFunctionCall {
  fc_id : string;
  fc_name : string;
  arg_part : string;
  arg_status : string;
  arg_feedback : string
}.

Record LiveServerMessage : Type := mkMessage {
  modelTurn : option (list Part);
  toolCall : option (list FunctionCall);
  interrupted : bool
}.

(** ** Component state *)

Inductive ContextRef : Type := NoContext | Running | Closed.

(** What the component does to the outside world. *)
Inductive Effect : Type :=
  | ConsoleError
  | Connect
  | CloseChannel
  | SendToolResponse (id name result : string)
  | LogBiomechanicalFault (part status feedback : string)
  | SourceStart (source : nat) (when : Q) (buffer : AudioBuffer)
  | SourceStop (source : nat).

Record State : Type := mkState {
  (* React state *)
  isActive : bool;
  hasCamera : bool;
  loading : bool;
  syncing : bool;
  transcription : string;
  highlights : gmap string HighlightData;
  (* refs *)
  streamRef : bool;
  sessionPromiseRef : bool;
  frameInterval : bool;            (* the video-frame timer is live *)
  scriptProcessor : bool;          (* the audio producer is connected *)
  inputAudioContextRef : ContextRef;
  outputAudioContextRef : ContextRef;
  nextStartTimeRef : Q;
  audioSourcesRef : list nat;      (* a [Set], in insertion order *)
  (* timers of the component *)
  sweepInterval : option Z;        (* period of the expiry timer *)
  syncTimeouts : nat;              (* pending [setSyncing(false)] timeouts *)
  (* bookkeeping of the embedding *)
  nextSource : nat;                (* identity of the next source node *)
  trace : list Effect
}.

Definition initial : State :=
  {| isActive := false; hasCamera := false; loading := false; syncing := false;
     transcription := "Neural core ready for link...";
     highlights := ∅;
     streamRef := false; sessionPromiseRef := false; frameInterval := false;
     scriptProcessor := false;
     inputAudioContextRef := NoContext; outputAudioContextRef := NoContext;
     nextStartTimeRef := 0%Q; audioSourcesRef := [];
     sweepInterval := None; syncTimeouts := 0%nat;
     nextSource := 0%nat; trace := [] |}.

Definition set_isActive v st := 
  mkState v (hasCamera st) (loading st) (syncing st) (transcription st) (highlights st)
    (streamRef st) (sessionPromiseRef st) (frameInterval st) (scriptProcessor st)
    (inputAudioContextRef st) (outputAudioContextRef st) (nextStartTimeRef st)
    (audioSourcesRef st) (sweepInterval st) (syncTimeouts st) (nextSource st) (trace st).
Definition set_hasCamera v st :=
  mkState (isActive st) v (loading st) (syncing st) (transcription st) (highlights st)
    (streamRef st) (sessionPromiseRef st) (frameInterval st) (scriptProcessor st)
    (inputAudioContextRef st) (outputAudioContextRef st) (nextStartTimeRef st)
    (audioSourcesRef st) (sweepInterval st) (syncTimeouts st) (nextSource st) (trace st).
Definition set_loading v st :=
  mkState (isActive st) (hasCamera st) v (syncing st) (transcription st) (highlights st)
    (streamRef st) (sessionPromiseRef st) (frameInterval st) (scriptProcessor st)
    (inputAudioContextRef st) (outputAudioContextRef st) (nextStartTimeRef st)
    (audioSourcesRef st) (sweepInterval st) (syncTimeouts st) (nextSource st) (trace st).
Definition set_syncing v st :=
  mkState (isActive st) (hasCamera st) (loading st) v (transcription st) (highlights st)
    (streamRef st) (sessionPromiseRef st) (frameInterval st) (scriptProcessor st)
    (inputAudioContextRef st) (outputAudioContextRef st) (nextStartTimeRef st)
    (audioSourcesRef st) (sweepInterval st) (syncTimeouts st) (nextSource st) (trace st).
Definition set_transcription v st :=
  mkState (isActive st) (hasCamera st) (loading st) (syncing st) v (highlights st)
    (streamRef st) (sessionPromiseRef st) (frameInterval st) (scriptProcessor st)
    (inputAudioContextRef st) (outputAudioContextRef st) (nextStartTimeRef st)
    (audioSourcesRef st) (sweepInterval st) (syncTimeouts st) (nextSource st) (trace st).
Definition set_highlights v st :=
  mkState (isActive st) (hasCamera st) (loading st) (syncing st) (transcription st) v
    (streamRef st) (sessionPromiseRef st) (frameInterval st) (scriptProcessor st)
    (inputAudioContextRef st) (outputAudioContextRef st) (nextStartTimeRef st)
    (audioSourcesRef st) (sweepInterval st) (syncTimeouts st) (nextSource st) (trace st).
Definition set_streamRef v st :=
  mkState (isActive st) (hasCamera st) (loading st) (syncing st) (transcription st)
    (highlights st) v (sessionPromiseRef st) (frameInterval st) (scriptProcessor st)
    (inputAudioContextRef st) (outputAudioContextRef st) (nextStartTimeRef st)
    (audioSourcesRef st) (sweepInterval st) (syncTimeouts st) (nextSource st) (trace st).
Definition set_sessionPromiseRef v st :=
  mkState (isActive st) (hasCamera st) (loading st) (syncing st) (transcription st)
    (highlights st) (streamRef st) v (frameInterval st) (scriptProcessor st)
    (inputAudioContextRef st) (outputAudioContextRef st) (nextStartTimeRef st)
    (audioSourcesRef st) (sweepInterval st) (syncTimeouts st) (nextSource st) (trace st).
Definition set_frameInterval v st :=
  mkState (isActive st) (hasCamera st) (loading st) (syncing st) (transcription st)
    (highlights st) (streamRef st) (sessionPromiseRef st) v (scriptProcessor st)
    (inputAudioContextRef st) (outputAudioContextRef st) (nextStartTimeRef st)
    (audioSourcesRef st) (sweepInterval st) (syncTimeouts st) (nextSource st) (trace st).
Definition set_scriptProcessor v st :=
  mkState (isActive st) (hasCamera st) (loading st) (syncing st) (transcription st)
    (highlights st) (streamRef st) (sessionPromiseRef st) (frameInterval st) v
    (inputAudioContextRef st) (outputAudioContextRef st) (nextStartTimeRef st)
    (audioSourcesRef st) (sweepInterval st) (syncTimeouts st) (nextSource st) (trace st).
Definition set_inputAudioContextRef v st :=
  mkState (isActive st) (hasCamera st) (loading st) (syncing st) (transcription st)
    (highlights st) (streamRef st) (sessionPromiseRef st) (frameInterval st)
    (scriptProcessor st) v (outputAudioContextRef st) (nextStartTimeRef st)
    (audioSourcesRef st) (sweepInterval st) (syncTimeouts st) (nextSource st) (trace st).
Definition set_outputAudioContextRef v st :=
  mkState (isActive st) (hasCamera st) (loading st) (syncing st) (transcription st)
    (highlights st) (streamRef st) (sessionPromiseRef st) (frameInterval st)
    (scriptProcessor st) (inputAudioContextRef st) v (nextStartTimeRef st)
    (audioSourcesRef st) (sweepInterval st) (syncTimeouts st) (nextSource st) (trace st).
Definition set_nextStartTimeRef v st :=
  mkState (isActive st) (hasCamera st) (loading st) (syncing st) (transcription st)
    (highlights st) (streamRef st) (sessionPromiseRef st) (frameInterval st)
    (scriptProcessor st) (inputAudioContextRef st) (outputAudioContextRef st) v
    (audioSourcesRef st) (sweepInterval st) (syncTimeouts st) (nextSource st) (trace st).
Definition set_audioSourcesRef v st :=
  mkState (isActive st) (hasCamera st) (loading st) (syncing st) (transcription st)
    (highlights st) (streamRef st) (sessionPromiseRef st) (frameInterval st)
    (scriptProcessor st) (inputAudioContextRef st) (outputAudioContextRef st)
    (nextStartTimeRef st) v (sweepInterval st) (syncTimeouts st) (nextSource st) (trace st).
Definition set_sweepInterval v st :=
  mkState (isActive st) (hasCamera st) (loading st) (syncing st) (transcription st)
    (highlights st) (streamRef st) (sessionPromiseRef st) (frameInterval st)
    (scriptProcessor st) (inputAudioContextRef st) (outputAudioContextRef st)
    (nextStartTimeRef st) (audioSourcesRef st) v (syncTimeouts st) (nextSource st) (trace st).
Definition set_syncTimeouts v st :=
  mkState (isActive st) (hasCamera st) (loading st) (syncing st) (transcription st)
    (highlights st) (streamRef st) (sessionPromiseRef st) (frameInterval st)
    (scriptProcessor st) (inputAudioContextRef st) (outputAudioContextRef st)
    (nextStartTimeRef st) (audioSourcesRef st) (sweepInterval st) v (nextSource st) (trace st).
Definition set_nextSource v st :=
  mkState (isActive st) (hasCamera st) (loading st) (syncing st) (transcription st)
    (highlights st) (streamRef st) (sessionPromiseRef st) (frameInterval st)
    (scriptProcessor st) (inputAudioContextRef st) (outputAudioContextRef st)
    (nextStartTimeRef st) (audioSourcesRef st) (sweepInterval st) (syncTimeouts st) v (trace st).
Definition emit (e : Effect) st :=
  mkState (isActive st) (hasCamera st) (loading st) (syncing st) (transcription st)
    (highlights st) (streamRef st) (sessionPromiseRef st) (frameInterval st)
    (scriptProcessor st) (inputAudioContextRef st) (outputAudioContextRef st)
    (nextStartTimeRef st) (audioSourcesRef st) (sweepInterval st) (syncTimeouts st)
    (nextSource st) (trace st ++ [e]).

(** ** Session callbacks *)

(** [if (ref.current) ref.current.close()]: the ref keeps the context. *)
Definition close_context (c : ContextRef) : ContextRef :=
  match c with
  | NoContext => NoContext
  | _ => Closed
  end.

(** [audioSourcesRef.current.forEach(s => s.stop())] *)
Definition stopSources (st : State) : State :=
  foldl (fun st s => emit (SourceStop s) st) st (audioSourcesRef st).

(** [Set.prototype.add] and [Set.prototype.delete] *)
Definition set_add (s : nat) (l : list nat) : list nat :=
  if bool_decide (s ∈ l) then l else l ++ [s].

Definition set_delete (s : nat) (l : list nat) : list nat :=
  filter (fun x => x ≠ s) l.

Definition stopSession (st : State) : State :=
  let st := set_isActive false st in
  let st := set_loading false st in
  let st := set_transcription "Uplink terminated." st in
  let st := set_frameInterval false st in
  let st := set_scriptProcessor false st in
  let st := set_inputAudioContextRef (close_context (inputAudioContextRef st)) st in
  let st := set_outputAudioContextRef (close_context (outputAudioContextRef st)) st in
  let st := if sessionPromiseRef st then emit CloseChannel st else st in
  let st := set_sessionPromiseRef false st in
  let st := stopSources st in
  let st := set_audioSourcesRef [] st in
  set_highlights ∅ st.

Definition startSession (st : State) : State :=
  if negb (hasCamera st) then st
  else
    let st := set_loading true st in
    let st := set_isActive true st in
    let st := set_transcription "SYNCHRONIZING NEURAL UPLINK..." st in
    let st := set_inputAudioContextRef Running st in
    let st := set_outputAudioContextRef Running st in
    let st := emit Connect st in
    set_sessionPromiseRef true st.

(** [onopen]: the audio producer needs the media stream, the video-frame
    timer needs the video and canvas elements, which are rendered exactly
    when the camera is on. *)
Definition onopen (st : State) : State :=
  let st := set_loading false st in
  let st := set_transcription "NEURAL LINK SECURED. MONITORING BIOMECHANICS." st in
  let st := if streamRef st then set_scriptProcessor true st else st in
  if hasCamera st then set_frameInterval true st else st.

(** [message.serverContent?.modelTurn.parts[0]?.inlineData?.data] *)
Definition audioData_of (message : LiveServerMessage) : option string :=
  match modelTurn message with
  | Some (part :: _) => inlineData part
  | _ => None
  end.

(** A string is truthy when it is not empty. *)
Definition truthy (s : string) : bool := negb (String.eqb s "").

Definition has_context (c : ContextRef) : bool :=
  match c with
  | NoContext => false
  | _ => true
  end.

(** Scheduling of one decoded clip on the output context. *)
Definition schedulePlayback (currentTime : Q) (audioBuffer : AudioBuffer)
    (st : State) : State :=
  let source := nextSource st in
  let st := set_nextSource (S source) st in
  let st := set_nextStartTimeRef (Qmax (nextStartTimeRef st) currentTime) st in
  let st := emit (SourceStart source (nextStartTimeRef st) audioBuffer) st in
  let st := set_nextStartTimeRef (nextStartTimeRef st + duration audioBuffer)%Q st in
  set_audioSourcesRef (set_add source (audioSourcesRef st)) st.

(** The audio branch of [onmessage]; an exception of the decoders leaves
    the branch, and the handler, at once. *)
Definition playAudio (currentTime : Q) (message : LiveServerMessage)
    (st : State) : result State :=
  match audioData_of message with
  | Some audioData =>
      if truthy audioData && has_context (outputAudioContextRef st) then
        let* bytes := decode audioData in
        let* audioBuffer := decodeAudioData bytes 24000 1 in
        ok (schedulePlayback currentTime audioBuffer st)
      else ok st
  | None => ok st
  end.

(** The body of the loop over [message.toolCall.functionCalls]. *)
Definition handleFunctionCall (now : Z) (st : State) (fc : FunctionCall) : State :=
  if String.eqb (fc_name fc) "updateAnatomyHighlight" then
    let st := set_highlights
                (upsert (arg_part fc) (arg_status fc) (arg_feedback fc) now
                   (highlights st)) st in
    let st :=
      if negb (String.eqb (arg_status fc) "optimal") then
        emit (LogBiomechanicalFault (arg_part fc) (arg_status fc) (arg_feedback fc))
          (set_syncing true st)
      else st in
    emit (SendToolResponse (fc_id fc) (fc_name fc) "HUD LAYER UPDATED & PERSISTED") st
  else st.

Definition handleToolCall (now : Z) (message : LiveServerMessage)
    (st : State) : State :=
  match toolCall message with
  | Some functionCalls => foldl (handleFunctionCall now) st functionCalls
  | None => st
  end.

Definition handleInterrupted (message : LiveServerMessage) (st : State) : State :=
  if interrupted message then
    let st := stopSources st in
    let st := set_audioSourcesRef [] st in
    set_nextStartTimeRef 0%Q st
  else st.

(** [onmessage], with the readings of [Date.now()] and of the output
    context's [currentTime] taken while it runs. *)
Definition onmessage (now : Z) (currentTime : Q) (message : LiveServerMessage)
    (st : State) : result State :=
  let* st := playAudio currentTime message st in
  let st := handleToolCall now message st in
  ok (handleInterrupted message st).

Definition onerror (st : State) : State :=
  let st := emit ConsoleError st in
  set_transcription "LINK FAILURE. RE-ESTABLISHING..." st.

Definition onclose (st : State) : State := stopSession st.

(** [source.onended] *)
Definition onended (source : nat) (st : State) : State :=
  set_audioSourcesRef (set_delete source (audioSourcesRef st)) st.

(** The [finally] callback of the fault log, whatever its outcome, and the
    timeout it arms. *)
Definition faultLogSettled (succeeded : bool) (st : State) : State :=
  set_syncTimeouts (S (syncTimeouts st)) st.

Definition syncTimeout (st : State) : State :=
  set_syncTimeouts (pred (syncTimeouts st)) (set_syncing false st).

(** ** Component life cycle and timers *)

(** The effect with an empty dependency list: runs when the component
    mounts, its clean-up when the component unmounts. *)
Definition mount (st : State) : State := set_sweepInterval (Some 1000) st.
Definition unmount (st : State) : State := set_sweepInterval None st.

(** The callback of the expiry timer. *)
Definition sweepTick (now : Z) (st : State) : State :=
  set_highlights (sweep now (highlights st)) st.

Definition stopCamera (st : State) : State :=
  set_hasCamera false (set_streamRef false st).

Definition toggleCamera (granted : bool) (st : State) : State :=
  if hasCamera st then stopCamera st
  else if granted then set_hasCamera true (set_streamRef true st)
  else st.

Inductive Event : Type :=
  | Mount
  | Unmount
  | SweepTick (now : Z)
  | ToggleCamera (granted : bool)
  | ClickSession
  | OnOpen
  | OnMessage (now : Z) (currentTime : Q) (message : LiveServerMessage)
  | OnError
  | OnClose
  | SourceEnded (source : nat)
  | FaultLogSettled (succeeded : bool)
  | SyncTimeout.

(** One turn of the event loop.  A timer fires only while it is armed; the
    session button is disabled without a camera or while loading; an
    exception in [onmessage] rejects the handler's promise and leaves the
    state as it was. *)
Definition step (st : State) (ev : Event) : option State :=
  match ev with
  | Mount => Some (mount st)
  | Unmount => Some (unmount st)
  | SweepTick now =>
      match sweepInterval st with
      | Some _ => Some (sweepTick now st)
      | None => None
      end
  | ToggleCamera granted => Some (toggleCamera granted st)
  | ClickSession =>
      if negb (hasCamera st) || loading st then None
      else Some (if isActive st then stopSession st else startSession st)
  | OnOpen => Some (onopen st)
  | OnMessage now currentTime message =>
      match onmessage now currentTime message st with
      | inr st' => Some st'
      | inl _ => Some st
      end
  | OnError => Some (onerror st)
  | OnClose => Some (onclose st)
  | SourceEnded source => Some (onended source st)
  | FaultLogSettled succeeded => Some (faultLogSettled succeeded st)
  | SyncTimeout =>
      match syncTimeouts st with
      | O => None
      | S _ => Some (syncTimeout st)
      end
  end.

Fixpoint run (st : State) (evs : list Event) : option State :=
  match evs with
  | [] => Some st
  | ev :: evs =>
      match step st ev with
      | Some st' => run st' evs
      | None => None
      end
  end.

(** The clips scheduled in a trace, in order: start time and buffer. *)
Definition scheduled (tr : list Effect) : list (Q * AudioBuffer) :=
  flat_map (fun e => match e with
                     | SourceStart _ when buffer => [(when, buffer)]
                     | _ => []
                     end) tr.

(** Encoding a sample buffer for the wire and decoding the payload again,
    the way [onmessage] decodes a payload: one channel. *)
Definition roundTrip (data : list Q) (rate : Z) : result AudioBuffer :=
  let* bytes := decode (blob_data (createBlob data)) in
  decodeAudioData bytes rate 1.

(** One quantization step of 16-bit PCM. *)
Definition quantum : Q := 1 # 32768.

(** ** Notions used to state the properties *)

(** The clip a message carries, as the audio branch of [onmessage]
    decodes it: nothing without a non-empty payload in the first part. *)
Definition clip_of (message : LiveServerMessage) : option (result AudioBuffer) :=
  match audioData_of message with
  | Some audioData =>
      if truthy audioData then
        Some (let* bytes := decode audioData in decodeAudioData bytes 24000 1)
      else None
  | None => None
  end.

(** The clips of a sequence of received messages, each with the reading
    of the playback clock at its arrival. *)
Definition clips_of (inputs : list (Z * Q * LiveServerMessage))
  : list (Q * AudioBuffer) :=
  flat_map (fun '(_, currentTime, message) =>
              match clip_of message with
              | Some (inr audioBuffer) => [(currentTime, audioBuffer)]
              | _ => []
              end) inputs.

Definition message_events (inputs : list (Z * Q * LiveServerMessage)) : list Event :=
  map (fun '(now, currentTime, message) => OnMessage now currentTime message) inputs.

(** The schedule in the words of the specification: every clip starts
    at the larger of the playback cursor and the clock, and the cursor is
    then advanced by the duration of the clip. *)
Fixpoint spec_schedule (cursor : Q) (clips : list (Q * AudioBuffer))
  : list (Q * AudioBuffer) :=
  match clips with
  | [] => []
  | (clock, audioBuffer) :: rest =>
      let start := Qmax cursor clock in
      (start, audioBuffer) :: spec_schedule (start + duration audioBuffer)%Q rest
  end.

Fixpoint spec_cursor (cursor : Q) (clips : list (Q * AudioBuffer)) : Q :=
  match clips with
  | [] => cursor
  | (clock, audioBuffer) :: rest =>
      spec_cursor (Qmax cursor clock + duration audioBuffer)%Q rest
  end.

(** No clip starts before the clip scheduled before it has ended. *)
Fixpoint sequential (schedule : list (Q * AudioBuffer)) : Prop :=
  match schedule with
  | (start, audioBuffer) :: rest =>
      match rest with
      | (next, _) :: _ => (start + duration audioBuffer <= next)%Q
      | [] => True
      end /\ sequential rest
  | [] => True
  end.

(** A sequence of [upsert] calls: part, status, feedback and the time of
    the call. *)
Definition UpsertCall : Type := (string * string * string * Z)%type.

Definition call_part (c : UpsertCall) : string := c.1.1.1.

Definition annotation_of (c : UpsertCall) : HighlightData :=
  mkHighlight c.1.1.2 c.1.2 c.2.

Definition apply_upserts (store : gmap string HighlightData)
    (calls : list UpsertCall) : gmap string HighlightData :=
  foldl (fun store c => upsert (call_part c) c.1.1.2 c.1.2 c.2 store) store calls.

(** The most recent call for a part. *)
Definition last_call (part : string) (calls : list UpsertCall) : option UpsertCall :=
  last (filter (fun c => call_part c = part) calls).

(** The number of connection attempts in a trace. *)
Definition is_connect (e : Effect) : bool :=
  match e with
  | Connect => true
  | _ => false
  end.

Definition connects (tr : list Effect) : nat :=
  length (filter (fun e => is_connect e = true) tr).

(** ** Example runs *)

Definition knees_critical : FunctionCall :=
  mkFunctionCall "call-7" "updateAnatomyHighlight" "knees" "critical"
    "Knees caving in".

Definition tool_message : LiveServerMessage :=
  mkMessage None (Some [knees_critical]) false.

Definition state_after (evs : list Event) : State :=
  match run initial evs with
  | Some st => st
  | None => initial
  end.

(** A session that was started, is open, and has received one tool
    call. *)
Definition session_events : list Event :=
  [Mount; ToggleCamera true; ClickSession; OnOpen; OnMessage 1000 0 tool_message].

Definition active_session : State := state_after session_events.

(** A session that was started and stopped again by the user, and a tool
    call that still arrives on the closing channel. *)
Definition idle_events : list Event :=
  [Mount; ToggleCamera true; ClickSession; OnOpen; ClickSession;
   OnMessage 1000 0 tool_message].

Definition audio_message (payload : string) : LiveServerMessage :=
  mkMessage (Some [mkPart (Some payload)]) None false.

Definition interrupt_message : LiveServerMessage := mkMessage None None true.

(** A session that was started and is open. *)
Definition open_session : State :=
  state_after [Mount; ToggleCamera true; ClickSession; OnOpen].

(** Two clips, of one and of two frames, arriving while the clock reads
    5 s. *)
Definition two_clips : list (Z * Q * LiveServerMessage) :=
  [(1000, 5%Q, audio_message "AAA="); (1001, 5%Q, audio_message "AAAAAA==")].

Definition playing_session : State :=
  state_after ([Mount; ToggleCamera true; ClickSession; OnOpen] ++ message_events two_clips).

Definition interrupted_session : State :=
  state_after ([Mount; ToggleCamera true; ClickSession; OnOpen]
               ++ message_events two_clips ++ [OnMessage 1002 (6#1) interrupt_message]).

(** ** Auxiliary notions of the proofs *)

(** Ranges of the integers of the codecs. *)
Definition is_byte (z : Z) : Prop := 0 <= z < 256.

Definition is_sextet (z : Z) : Prop := 0 <= z < 64.

Definition is_int16 (v : Z) : Prop := -32768 <= v < 32768.

(** A buffer with other channel data. *)
Definition with_channels (b : AudioBuffer) (chs : list (list Q)) : AudioBuffer :=
  {| numberOfChannels := numberOfChannels b;
     buffer_length := buffer_length b;
     sampleRate := sampleRate b;
     channels := chs |}.

(** The samples of the channels, de-interleaved and normalised. *)
Definition deinterleave (dataInt16 : list Z) (numChannels frames : nat)
  : list (list Q) :=
  map (fun channel =>
         map (fun i => (inject_Z (nth (i * numChannels + channel)%nat dataInt16 0%Z)
                        / 32768)%Q)
           (seq 0 frames))
    (seq 0 numChannels).

(** The staleness test of the sweep. *)
Definition stale (now : Z) (data : HighlightData) : bool :=
  7000 <? now - lastUpdated data.

(** The state with another HUD store, sync flag and some more effects:
    all that the tool-call loop changes. *)
Definition with_hud (h : gmap string HighlightData) (s : bool) (new : list Effect)
    (st : State) : State :=
  mkState (isActive st) (hasCamera st) (loading st) s (transcription st) h
    (streamRef st) (sessionPromiseRef st) (frameInterval st) (scriptProcessor st)
    (inputAudioContextRef st) (outputAudioContextRef st) (nextStartTimeRef st)
    (audioSourcesRef st) (sweepInterval st) (syncTimeouts st) (nextSource st)
    (trace st ++ new).

(** The effects of one call of the HUD tool. *)
Definition call_effects (fc : FunctionCall) : list Effect :=
  (if String.eqb (arg_status fc) "optimal" then []
   else [LogBiomechanicalFault (arg_part fc) (arg_status fc) (arg_feedback fc)])
  ++ [SendToolResponse (fc_id fc) (fc_name fc) "HUD LAYER UPDATED & PERSISTED"].

(** The effects only the tool-call loop issues. *)
Definition tool_effect (e : Effect) : Prop :=
  match e with
  | LogBiomechanicalFault _ _ _ | SendToolResponse _ _ _ => True
  | _ => False
  end.

(** [quiet st st']: the expiry timer is as it was, and the trace grew by
    effects none of which is a connection attempt. *)
Definition quiet (st st' : State) : Prop :=
  sweepInterval st' = sweepInterval st
  /\ exists new, trace st' = trace st ++ new /\ connects new = 0%nat.

(** ** Messages with synthesized audio *)

(** A message with synthesized audio, read off the message itself: its
    model turn starts with a part whose inline data is a non-empty base64
    payload, and the payload decodes, as 24000 Hz mono PCM, to the
    buffer. *)
Definition carries_clip (message : LiveServerMessage) (audioBuffer : AudioBuffer)
  : Prop :=
  exists payload rest,
    modelTurn message = Some (mkPart (Some payload) :: rest)
    /\ payload <> ""
    /\ (let* bytes := decode payload in decodeAudioData bytes 24000 1)
       = ok audioBuffer.

(** A message whose audio payload does not decode. *)
Definition carries_undecodable (message : LiveServerMessage) (e : JsError) : Prop :=
  exists payload rest,
    modelTurn message = Some (mkPart (Some payload) :: rest)
    /\ payload <> ""
    /\ (let* bytes := decode payload in decodeAudioData bytes 24000 1)
       = throw e.

(** Audio messages as they arrive: the readings of [Date.now()] and of
    the playback clock, the message, and the clip it carries. *)
Definition audio_events (inputs : list (Z * Q * LiveServerMessage * AudioBuffer))
  : list Event :=
  map (fun i => OnMessage i.1.1.1 i.1.1.2 i.1.2) inputs.

Definition audio_clips (inputs : list (Z * Q * LiveServerMessage * AudioBuffer))
  : list (Q * AudioBuffer) :=
  map (fun i => (i.1.1.2, i.2)) inputs.

(** The buffers of the payloads [AAA=] (one frame) and [AAAAAA==] (two
    frames) of silence. *)
Definition one_frame : AudioBuffer :=
  {| numberOfChannels := 1; buffer_length := 1; sampleRate := 24000;
     channels := [[(0 # 32768)%Q]] |}.

Definition two_frames : AudioBuffer :=
  {| numberOfChannels := 1; buffer_length := 2; sampleRate := 24000;
     channels := [[(0 # 32768)%Q; (0 # 32768)%Q]] |}.

Definition two_inputs : list (Z * Q * LiveServerMessage * AudioBuffer) :=
  [(1000, 5%Q, audio_message "AAA=", one_frame);
   (1001, 5%Q, audio_message "AAAAAA==", two_frames)].

(** A first session that plays the two clips, is stopped and started
    again by the user, and a clip that arrives in the second session
    while the clock of its new output context reads 0. *)
Definition restart_events : list Event :=
  [Mount; ToggleCamera true; ClickSession; OnOpen]
  ++ message_events two_clips
  ++ [ClickSession; ClickSession; OnOpen; OnMessage 1003 0 (audio_message "AAA=")].


(** ** The HUD overlay and the status indicators *)

Record Box : Type := mkBox { box_x : Q; box_y : Q; box_w : Q; box_h : Q }.

(** The anatomy map: relative coordinates of the five body regions, the
    decimal literals as they are written. *)
Definition ANATOMY_MAP : gmap string Box :=
  list_to_map
    [("spine", mkBox 0.45 0.25 0.1 0.45);
     ("knees", mkBox 0.35 0.65 0.3 0.2);
     ("shoulders", mkBox 0.3 0.15 0.4 0.15);
     ("head", mkBox 0.42 0.02 0.16 0.18);
     ("core", mkBox 0.38 0.4 0.24 0.25)]%Q.

(** The colour of a status: green for optimal, amber for warning, rose
    for everything else. *)
Definition status_color (st : string) : string :=
  if String.eqb st "optimal" then "#10b981"
  else if String.eqb st "warning" then "#f59e0b"
  else "#f43f5e".

(** The property names that every object literal inherits from
    [Object.prototype]: a lookup [ANATOMY_MAP[part]] with one of them
    finds a function or the prototype itself, which is truthy. *)
Definition Object_prototype : list string :=
  ["constructor"; "hasOwnProperty"; "isPrototypeOf"; "propertyIsEnumerable";
   "toLocaleString"; "toString"; "valueOf"; "__proto__"; "__defineGetter__";
   "__defineSetter__"; "__lookupGetter__"; "__lookupSetter__"].

(** What [ANATOMY_MAP[part]] finds: a box of the map, or an inherited
    property. *)
Inductive Found : Type :=
  | OwnBox (box : Box)
  | Inherited.

Definition ANATOMY_MAP_get (part : string) : option Found :=
  match ANATOMY_MAP !! part with
  | Some box => Some (OwnBox box)
  | None => if bool_decide (part ∈ Object_prototype) then Some Inherited else None
  end.

(** [box.x * 100] and the like. *)
Definition percent (box : Box) : Box :=
  mkBox (box_x box * 100) (box_y box * 100) (box_w box * 100) (box_h box * 100).

(** A group of the overlay: its key, its colour and its rectangle in
    percent; there is no rectangle when the coordinates are not numbers,
    as those read from an inherited property. *)
Record Overlay : Type := mkOverlay {
  overlay_part : string;
  overlay_color : string;
  overlay_rect : option Box
}.

(** The callback of [Object.entries(highlights).map]: nothing is drawn
    for a part that the map does not resolve; the markup drawn from the
    colour and the rectangle is left out. *)
Definition overlay_of (entry : string * HighlightData) : option Overlay :=
  match ANATOMY_MAP_get entry.1 with
  | Some found =>
      Some (mkOverlay entry.1 (status_color (status entry.2))
              match found with
              | OwnBox box => Some (percent box)
              | Inherited => None
              end)
  | None => None
  end.

(** The groups drawn, in the order of the store's keys. *)
Definition HUDOverlay (highlights : gmap string HighlightData) : list Overlay :=
  omap overlay_of (map_to_list highlights).


(** ** Further notions used to state the properties *)

Definition is_close (e : Effect) : bool :=
  match e with
  | CloseChannel => true
  | _ => false
  end.

(** The number of channel closes in a trace. *)
Definition closes (tr : list Effect) : nat :=
  length (filter (fun e => is_close e = true) tr).

(** The acknowledgments sent in a trace, in order: id, name, response. *)
Definition acks (tr : list Effect) : list (string * string * string) :=
  flat_map (fun e => match e with
                     | SendToolResponse id name response => [(id, name, response)]
                     | _ => []
                     end) tr.

(** The fault logs issued in a trace, in order: part, status, feedback. *)
Definition fault_logs (tr : list Effect) : list (string * string * string) :=
  flat_map (fun e => match e with
                     | LogBiomechanicalFault part st fb => [(part, st, fb)]
                     | _ => []
                     end) tr.

(** The calls of a message that name the HUD tool. *)
Definition hud_calls (functionCalls : list FunctionCall) : list FunctionCall :=
  filter (fun fc => fc_name fc = "updateAnatomyHighlight") functionCalls.

(** The sources started in a trace. *)
Definition started (tr : list Effect) : list nat :=
  flat_map (fun e => match e with
                     | SourceStart source _ _ => [source]
                     | _ => []
                     end) tr.

(** The effects that neither open nor close a channel nor start a
    source. *)
Definition inert (e : Effect) : Prop :=
  match e with
  | Connect | CloseChannel | SourceStart _ _ _ => False
  | _ => True
  end.

(** What holds of every state the component can reach: the session flag
    agrees with the channel reference, every connection but the open one
    has been closed, the pending sources are distinct sources that were
    started, and no source identity is used twice. *)
Definition session_invariant (st : State) : Prop :=
  isActive st = sessionPromiseRef st
  /\ connects (trace st)
     = (closes (trace st) + (if sessionPromiseRef st then 1 else 0))%nat
  /\ NoDup (audioSourcesRef st)
  /\ (forall s, s ∈ audioSourcesRef st -> s ∈ started (trace st))
  /\ Forall (fun s => (s < nextSource st)%nat) (started (trace st))
  /\ NoDup (started (trace st)).

(** * Properties *)

(** ** Base64 *)

Section list_ind3.
Context {A : Type} (P : list A -> Prop).
Hypothesis P0 : P [].
Hypothesis P1 : forall a, P [a].
Hypothesis P2 : forall a b, P [a; b].
Hypothesis P3 : forall a b c l, P l -> P (a :: b :: c :: l).

(** Induction on lists in steps of three. *)
Lemma list_ind3 : forall l, P l.
Proof using P0 P1 P2 P3.
  fix IH 1. intros [|a [|b [|c l]]];
    [apply P0 | apply P1 | apply P2 | apply P3, IH].
Qed.
End list_ind3.

(** Linear arithmetic with division and remainder by constants. *)
Ltac divlia := Z.to_euclidean_division_equations; lia.

Lemma sextet_table :
  forallb (fun k =>
    let n := Z.of_nat k in
    let c := Base64.sextet_char n in
    match Base64.char_sextet c with
    | Some m => (m =? n) && negb (Base64.is_pad c) && negb (Base64.is_whitespace c)
    | None => false
    end) (seq 0 64) = true.
Proof. vm_compute. reflexivity. Qed.

Lemma sextet_char_spec n :
  is_sextet n ->
  Base64.char_sextet (Base64.sextet_char n) = Some n
  /\ Base64.is_pad (Base64.sextet_char n) = false
  /\ Base64.is_whitespace (Base64.sextet_char n) = false.
Proof.
  intros Hn.
  pose proof sextet_table as T. rewrite forallb_forall in T.
  specialize (T (Z.to_nat n)).
  rewrite Z2Nat.id in T by (unfold is_sextet in Hn; lia).
  cbv zeta in T.
  destruct (Base64.char_sextet (Base64.sextet_char n)) as [m|].
  - assert (Hin : In (Z.to_nat n) (seq 0 64)).
    { apply in_seq. unfold is_sextet in Hn. lia. }
    specialize (T Hin).
    apply andb_prop in T as [T Tw]. apply andb_prop in T as [Te Tp].
    apply Z.eqb_eq in Te. subst m.
    rewrite negb_true_iff in Tp, Tw. auto.
  - exfalso. assert (Hin : In (Z.to_nat n) (seq 0 64)).
    { apply in_seq. unfold is_sextet in Hn. lia. }
    specialize (T Hin). discriminate.
Qed.

Lemma sextets_range l : Forall is_byte l -> Forall is_sextet (Base64.sextets l).
Proof.
  induction l as [| a | a b | a b c l IH] using list_ind3; intros H.
  - constructor.
  - apply Forall_cons_1 in H as [Ha _]. unfold is_byte in Ha.
    cbn [Base64.sextets]. repeat apply Forall_cons_2; try apply Forall_nil_2; unfold is_sextet; divlia.
  - apply Forall_cons_1 in H as [Ha H]. apply Forall_cons_1 in H as [Hb _].
    unfold is_byte in *. cbn [Base64.sextets]. cbv zeta.
    repeat apply Forall_cons_2; try apply Forall_nil_2; unfold is_sextet; divlia.
  - apply Forall_cons_1 in H as [Ha H]. apply Forall_cons_1 in H as [Hb H].
    apply Forall_cons_1 in H as [Hc H].
    unfold is_byte in *. cbn [Base64.sextets]. cbv zeta.
    repeat (apply Forall_cons_2; [unfold is_sextet; divlia|]). auto.
Qed.

Lemma unsextets_sextets l : Forall is_byte l -> Base64.unsextets (Base64.sextets l) = l.
Proof.
  induction l as [| a | a b | a b c l IH] using list_ind3; intros H.
  - reflexivity.
  - apply Forall_cons_1 in H as [Ha _]. unfold is_byte in Ha.
    cbn [Base64.sextets Base64.unsextets]. f_equal. divlia.
  - apply Forall_cons_1 in H as [Ha H]. apply Forall_cons_1 in H as [Hb _].
    unfold is_byte in *. cbn [Base64.sextets Base64.unsextets]. cbv zeta.
    f_equal; [|f_equal]; divlia.
  - apply Forall_cons_1 in H as [Ha H]. apply Forall_cons_1 in H as [Hb H].
    apply Forall_cons_1 in H as [Hc H].
    unfold is_byte in *. cbn [Base64.sextets Base64.unsextets]. cbv zeta.
    rewrite IH by assumption.
    f_equal; [|f_equal; [|f_equal]]; divlia.
Qed.

Lemma sextets_length l :
  ((length (Base64.sextets l) + length (Base64.padding (length l))) mod 4 = 0
   /\ length (Base64.sextets l) mod 4 <> 1)%nat.
Proof.
  induction l as [| a | a b | a b c l IH] using list_ind3; try (split; [reflexivity | discriminate]).
  cbn [Base64.sextets]. cbv zeta.
  assert (Hp : Base64.padding (length (a :: b :: c :: l)) = Base64.padding (length l)).
  { unfold Base64.padding. cbn [length].
    replace (S (S (S (length l)))) with (length l + 1 * 3)%nat by lia.
    now rewrite Nat.Div0.mod_add. }
  rewrite Hp. cbn [length].
  destruct IH as [IH1 IH2]. split.
  - replace (S (S (S (S (length (Base64.sextets l)))))
             + length (Base64.padding (length l)))%nat
      with (length (Base64.sextets l) + length (Base64.padding (length l)) + 1 * 4)%nat by lia.
    now rewrite Nat.Div0.mod_add.
  - replace (S (S (S (S (length (Base64.sextets l))))))
      with (length (Base64.sextets l) + 1 * 4)%nat by lia.
    now rewrite Nat.Div0.mod_add.
Qed.

Lemma padding_cases n :
  Base64.padding n = [] \/ Base64.padding n = [Base64.pad]
  \/ Base64.padding n = [Base64.pad; Base64.pad].
Proof.
  unfold Base64.padding. destruct (n mod 3)%nat as [|[|[|k]]]; auto.
Qed.

Lemma drop_padding_app body tail :
  Forall (fun c => Base64.is_pad c = false) body ->
  tail = [] \/ tail = [Base64.pad] \/ tail = [Base64.pad; Base64.pad] ->
  Base64.drop_padding (body ++ tail) = body.
Proof.
  intros Hb Ht. induction Hb as [|c body Hc Hb IH].
  - destruct Ht as [->|[->| ->]]; reflexivity.
  - cbn [app Base64.drop_padding]. rewrite Hc. cbn [andb]. now rewrite IH.
Qed.

Lemma no_whitespace_filter (l : list ascii) :
  Forall (fun c => Base64.is_whitespace c = false) l ->
  filter (fun c => Base64.is_whitespace c = false) l = l.
Proof.
  induction 1 as [|c l Hc Hl IH]; [reflexivity|].
  rewrite filter_cons. destruct (decide _) as [_|n]; [now rewrite IH | contradiction].
Qed.

Lemma mapM_char_sextet sx :
  Forall is_sextet sx ->
  mapM Base64.char_sextet (map Base64.sextet_char sx) = Some sx.
Proof.
  induction 1 as [|n sx Hn Hsx IH]; [reflexivity|].
  cbn [map mapM]. fold (mapM Base64.char_sextet (map Base64.sextet_char sx)).
  rewrite IH. destruct (sextet_char_spec n Hn) as [-> _]. reflexivity.
Qed.

Lemma code_is_byte c : is_byte (Base64.code c).
Proof.
  unfold is_byte, Base64.code. pose proof (N_ascii_bounded c). lia.
Qed.

Lemma char_code c : Base64.char (Base64.code c) = c.
Proof.
  unfold Base64.char, Base64.code. rewrite N2Z.id. apply ascii_N_embedding.
Qed.

Lemma pad_not_whitespace : Base64.is_whitespace Base64.pad = false.
Proof. reflexivity. Qed.

(** [atob] inverts [btoa] on every binary string. *)
Lemma atob_btoa s : Base64.atob (Base64.btoa s) = ok s.
Proof.
  unfold Base64.atob, Base64.btoa.
  rewrite list_ascii_of_string_of_list_ascii.
  set (bytes := map Base64.code (list_ascii_of_string s)).
  assert (Hbytes : Forall is_byte bytes).
  { unfold bytes. apply Forall_map, Forall_forall. intros c _. apply code_is_byte. }
  pose proof (sextets_range bytes Hbytes) as Hsx.
  set (body := map Base64.sextet_char (Base64.sextets bytes)).
  assert (Hnp : Forall (fun c => Base64.is_pad c = false) body).
  { unfold body. apply Forall_map. eapply Forall_impl; [exact Hsx|].
    intros n Hn. apply (sextet_char_spec n Hn). }
  assert (Hnw : Forall (fun c => Base64.is_whitespace c = false)
                  (body ++ Base64.padding (length bytes))).
  { apply Forall_app. split.
    - unfold body. apply Forall_map. eapply Forall_impl; [exact Hsx|].
      intros n Hn. apply (sextet_char_spec n Hn).
    - destruct (padding_cases (length bytes)) as [->|[->| ->]];
        repeat apply Forall_cons_2; try apply Forall_nil_2; apply pad_not_whitespace. }
  rewrite (no_whitespace_filter _ Hnw).
  destruct (sextets_length bytes) as [Hlen Hbody].
  assert (Hmod : (length (body ++ Base64.padding (length bytes)) mod 4 =? 0)%nat = true).
  { rewrite length_app. unfold body. rewrite length_map, Hlen. reflexivity. }
  assert (Hmod' : (length body mod 4 =? 1)%nat = false).
  { unfold body. rewrite length_map. now apply Nat.eqb_neq. }
  cbv zeta. rewrite Hmod, (drop_padding_app body _ Hnp (padding_cases _)), Hmod'.
  unfold body. rewrite (mapM_char_sextet _ Hsx), (unsextets_sextets _ Hbytes).
  unfold bytes. rewrite map_map.
  rewrite (map_ext _ id) by (intros c; apply char_code).
  rewrite map_id, string_of_list_ascii_of_string. reflexivity.
Qed.

(** ** Loops that fill an array by index *)

Lemma fill_loop {A : Type} (f : nat -> A) (d : A) (n : nat) :
  foldl (fun arr i => <[i := f i]> arr) (replicate n d) (seq 0 n) = map f (seq 0 n).
Proof.
  assert (H : forall k, (k <= n)%nat ->
            foldl (fun arr i => <[i := f i]> arr) (replicate n d) (seq 0 k)
            = map f (seq 0 k) ++ replicate (n - k) d).
  { induction k as [|k IH]; intros Hk.
    - cbn. now rewrite Nat.sub_0_r.
    - rewrite seq_S, foldl_snoc, IH by lia. cbn [plus].
      rewrite map_app. cbn [map].
      replace (n - k)%nat with (S (n - S k)) by lia. cbn [replicate].
      assert (Hl : length (map f (seq 0 k)) = k) by now rewrite length_map, length_seq.
      rewrite <- Hl at 1.
      replace (length (map f (seq 0 k))) with (length (map f (seq 0 k)) + 0)%nat at 1 by lia.
      rewrite insert_app_r. cbn. now rewrite <- app_assoc. }
  rewrite H by lia. rewrite Nat.sub_diag. cbn. apply app_nil_r.
Qed.

Lemma map_seq_nth {A B : Type} (g : A -> B) (d : A) (l : list A) :
  map (fun i => g (nth i l d)) (seq 0 (length l)) = map g l.
Proof.
  induction l as [|a l IH]; [reflexivity|].
  cbn [length seq map nth]. f_equal.
  rewrite <- seq_shift, map_map. exact IH.
Qed.

(** ** The wire codec *)

Lemma charCodeAt_nth s i :
  (i < String.length s)%nat ->
  charCodeAt s i = byte_of_ascii (nth i (list_ascii_of_string s) Ascii.zero).
Proof.
  unfold charCodeAt. revert i.
  induction s as [|c s IH]; intros i Hi; cbn in Hi; [lia|].
  destruct i as [|i]; [reflexivity|]. cbn. apply IH. lia.
Qed.

Lemma length_list_ascii s : length (list_ascii_of_string s) = String.length s.
Proof. induction s as [|c s IH]; cbn; congruence. Qed.

Lemma append_empty_r s : s +:+ "" = s.
Proof.
  induction s as [|c s IH]; [reflexivity|].
  change (String c (s +:+ "") = String c s). now rewrite IH.
Qed.

Lemma append_snoc s c t : (s +:+ String c "") +:+ t = s +:+ String c t.
Proof.
  induction s as [|c' s IH]; [reflexivity|].
  change (String c' ((s +:+ String c "") +:+ t) = String c' (s +:+ String c t)).
  now rewrite IH.
Qed.

Lemma binary_loop bytes acc :
  foldl (fun binary b => binary +:+ fromCharCode b) acc bytes
  = acc +:+ string_of_list_ascii (map ascii_of_byte bytes).
Proof.
  revert acc. induction bytes as [|b bytes IH]; intros acc; cbn [foldl map string_of_list_ascii].
  - now rewrite append_empty_r.
  - rewrite IH. unfold fromCharCode. apply append_snoc.
Qed.

Lemma decode_btoa binary :
  decode (Base64.btoa binary)
  = ok (map byte_of_ascii (list_ascii_of_string binary)).
Proof.
  unfold decode. rewrite atob_btoa. cbn [bind ok]. f_equal.
  rewrite fill_loop.
  rewrite <- (map_seq_nth byte_of_ascii Ascii.zero), length_list_ascii.
  apply map_ext_in. intros i Hi. apply in_seq in Hi.
  apply charCodeAt_nth. lia.
Qed.

Lemma encode_btoa (bytes : list byte) :
  encode bytes = Base64.btoa (string_of_list_ascii (map ascii_of_byte bytes)).
Proof. unfold encode. now rewrite binary_loop. Qed.

Lemma bytes_of_binary (bytes : list byte) :
  map byte_of_ascii (list_ascii_of_string (string_of_list_ascii (map ascii_of_byte bytes)))
  = bytes.
Proof.
  rewrite list_ascii_of_string_of_list_ascii, map_map.
  rewrite (map_ext _ id) by (intros b; apply byte_of_ascii_of_byte).
  apply map_id.
Qed.

(** C10. The base64 wire codec is lossless: for every byte array,
    decoding its encoding succeeds and gives the byte array back. *)
Theorem base64_codec_lossless (bytes : list byte) :
  decode (encode bytes) = ok bytes.
Proof.
  unfold encode. rewrite binary_loop.
  change ("" +:+ ?s) with s.
  rewrite decode_btoa. f_equal. apply bytes_of_binary.
Qed.

(** ** Bytes and 16-bit integers *)

Lemma Z_of_byte_range b : is_byte (Z_of_byte b).
Proof.
  unfold is_byte, Z_of_byte. pose proof (Byte.to_N_bounded b). lia.
Qed.

Lemma Z_of_byte_of_Z z : is_byte z -> Z_of_byte (byte_of_Z z) = z.
Proof.
  intros Hz. unfold is_byte in Hz. unfold Z_of_byte, byte_of_Z.
  destruct (Byte.of_N (Z.to_N z)) as [b|] eqn:E.
  - apply Byte.to_of_N in E. rewrite E. lia.
  - apply Byte.of_N_None_iff in E. lia.
Qed.

Lemma int16_pairs_bytes int16 :
  Forall is_int16 int16 -> int16_pairs (bytes_of_int16 int16) = int16.
Proof.
  induction 1 as [|v int16 Hv _ IH]; [reflexivity|].
  unfold is_int16 in Hv.
  cbn [bytes_of_int16 flat_map app int16_pairs]. cbv zeta.
  fold (bytes_of_int16 int16). rewrite IH.
  rewrite !Z_of_byte_of_Z by (unfold is_byte; divlia).
  f_equal. destruct (32768 <=? _) eqn:E;
    [apply Z.leb_le in E | apply Z.leb_gt in E]; divlia.
Qed.

Lemma length_bytes_of_int16 int16 :
  length (bytes_of_int16 int16) = (2 * length int16)%nat.
Proof.
  induction int16 as [|v int16 IH]; [reflexivity|].
  cbn [bytes_of_int16 flat_map app length]. fold (bytes_of_int16 int16). lia.
Qed.

Lemma length_int16_pairs data :
  length (int16_pairs data) = (length data / 2)%nat.
Proof.
  revert data. fix IH 1. intros [|lo [|hi data]]; [reflexivity | reflexivity |].
  cbn [int16_pairs length]. rewrite (IH data).
  change (S (S (length data))) with (1 * 2 + length data)%nat.
  rewrite Nat.div_add_l by lia. reflexivity.
Qed.

Lemma ToInt16_range x : is_int16 (ToInt16 x).
Proof.
  unfold is_int16, ToInt16. cbv zeta.
  destruct (32768 <=? _) eqn:E;
    [apply Z.leb_le in E | apply Z.leb_gt in E]; divlia.
Qed.

Lemma ToInt16_small x :
  is_int16 (truncate x) -> ToInt16 x = truncate x.
Proof.
  unfold is_int16, ToInt16. cbv zeta. intros H.
  destruct (32768 <=? _) eqn:E;
    [apply Z.leb_le in E | apply Z.leb_gt in E]; divlia.
Qed.

(** ** The loops of [decodeAudioData] *)

Lemma writes_past_end {A : Type} (f : nat -> A) (l : list A) (idx : list nat) :
  Forall (fun i => (length l <= i)%nat) idx ->
  foldl (fun arr i => <[i := f i]> arr) l idx = l.
Proof.
  induction 1 as [|i idx Hi _ IH]; [reflexivity|].
  cbn [foldl]. rewrite list_insert_ge by exact Hi. exact IH.
Qed.

Lemma fill_loop_over {A : Type} (f : nat -> A) (d : A) (n k : nat) :
  (n <= k)%nat ->
  foldl (fun arr i => <[i := f i]> arr) (replicate n d) (seq 0 k) = map f (seq 0 n).
Proof.
  intros Hk. replace k with (n + (k - n))%nat by lia.
  rewrite seq_app, foldl_app, fill_loop. apply writes_past_end.
  rewrite length_map, length_seq. apply Forall_forall.
  intros i Hi. apply elem_of_seq in Hi. lia.
Qed.

Lemma alter_loop {A : Type} (F : nat -> A -> A) (d : A) (n : nat) :
  foldl (fun arr c => alter (F c) c arr) (replicate n d) (seq 0 n)
  = map (fun c => F c d) (seq 0 n).
Proof.
  assert (H : forall k, (k <= n)%nat ->
            foldl (fun arr c => alter (F c) c arr) (replicate n d) (seq 0 k)
            = map (fun c => F c d) (seq 0 k) ++ replicate (n - k) d).
  { induction k as [|k IH]; intros Hk.
    - cbn. now rewrite Nat.sub_0_r.
    - rewrite seq_S, foldl_snoc, IH by lia. cbn [plus].
      rewrite map_app. cbn [map].
      replace (n - k)%nat with (S (n - S k)) by lia. cbn [replicate].
      assert (Hl : length (map (fun c => F c d) (seq 0 k)) = k)
        by now rewrite length_map, length_seq.
      rewrite alter_app_r_alt by lia. rewrite Hl, Nat.sub_diag. cbn.
      now rewrite <- app_assoc. }
  rewrite H by lia. rewrite Nat.sub_diag. cbn. apply app_nil_r.
Qed.

Lemma sample_loop channel (g : nat -> Q) (idx : list nat) (b : AudioBuffer) :
  foldl (fun b i => setChannelSample channel i (g i) b) b idx
  = with_channels b
      (alter (fun row => foldl (fun row i => <[i := g i]> row) row idx)
         channel (channels b)).
Proof.
  revert b. induction idx as [|i idx IH]; intros b; cbn [foldl].
  - rewrite list_alter_id by reflexivity. now destruct b.
  - rewrite IH. unfold with_channels, setChannelSample. cbn.
    now rewrite list_alter_alter_eq.
Qed.

Lemma channel_loop (g : nat -> nat -> Q) (idx cs : list nat) (b : AudioBuffer) :
  foldl (fun b c => foldl (fun b i => setChannelSample c i (g c i) b) b idx) b cs
  = with_channels b
      (foldl (fun chs c =>
                alter (fun row => foldl (fun row i => <[i := g c i]> row) row idx) c chs)
         (channels b) cs).
Proof.
  revert b. induction cs as [|c cs IH]; intros b; cbn [foldl].
  - now destruct b.
  - rewrite IH, sample_loop. reflexivity.
Qed.

Lemma truncate_nonneg_ratio (n m : nat) :
  (0 < m)%nat ->
  truncate (inject_Z (Z.of_nat n) / inject_Z (Z.of_nat m)) = Z.of_nat (n / m).
Proof.
  intros Hm. rewrite Nat2Z.inj_div, Zdiv_Qdiv.
  set (x := (inject_Z (Z.of_nat n) / inject_Z (Z.of_nat m))%Q).
  assert (Hx : (0 <= x)%Q).
  { unfold x. apply Qle_shift_div_l.
    - change 0%Q with (inject_Z 0). rewrite <- Zlt_Qlt. lia.
    - rewrite Qmult_0_l. change 0%Q with (inject_Z 0). rewrite <- Zle_Qle. lia. }
  destruct x as [a d]. unfold truncate, Qfloor. cbn [Qnum Qden].
  apply Z.quot_div_nonneg; [|lia].
  unfold Qle in Hx. cbn in Hx. lia.
Qed.

Lemma truncate_le_ceiling x : (0 <= x)%Q -> truncate x <= Qceiling x.
Proof.
  intros Hx.
  assert (Ht : truncate x = Qfloor x).
  { destruct x as [a d]. unfold truncate, Qfloor. cbn [Qnum Qden].
    apply Z.quot_div_nonneg; [|lia]. unfold Qle in Hx. cbn in Hx. lia. }
  rewrite Ht, Zle_Qle. apply Qle_floor_ceiling.
Qed.

(** What [decodeAudioData] returns on a buffer of even length that holds
    at least one whole frame. *)
Lemma decodeAudioData_even (data : list byte) (rate : Z) (numChannels : nat) :
  (length data mod 2 = 0)%nat ->
  (0 < numChannels)%nat ->
  (0 < length data / 2 / numChannels)%nat ->
  decodeAudioData data rate numChannels
  = ok {| numberOfChannels := numChannels;
          buffer_length := (length data / 2 / numChannels)%nat;
          sampleRate := rate;
          channels := deinterleave (int16_pairs data) numChannels
                        (length data / 2 / numChannels) |}.
Proof.
  intros Heven Hnc Hframes.
  unfold decodeAudioData, Int16Array_of_buffer.
  rewrite Heven. cbn [Nat.eqb bind ok]. cbv zeta.
  unfold createBuffer. cbv zeta.
  rewrite length_int16_pairs, truncate_nonneg_ratio, Nat2Z.id by exact Hnc.
  destruct numChannels as [|nc]; [lia|].
  destruct (length data / 2 / S nc)%nat as [|fr] eqn:Efr; [lia|].
  cbn [Nat.eqb orb bind ok]. f_equal.
  rewrite channel_loop. unfold with_channels. cbn [numberOfChannels buffer_length sampleRate channels].
  f_equal. rewrite alter_loop. unfold deinterleave.
  apply map_ext. intros c. apply fill_loop_over.
  assert (Hq : (0 <= inject_Z (Z.of_nat (length data / 2)) / inject_Z (Z.of_nat (S nc)))%Q).
  { apply Qle_shift_div_l.
    - change 0%Q with (inject_Z 0). rewrite <- Zlt_Qlt. lia.
    - rewrite Qmult_0_l. change 0%Q with (inject_Z 0). rewrite <- Zle_Qle. lia. }
  pose proof (truncate_le_ceiling _ Hq) as Hle.
  rewrite truncate_nonneg_ratio in Hle by lia. lia.
Qed.

(** ** Round trip of the audio codec *)

Lemma createBlob_data data :
  blob_data (createBlob data)
  = encode (bytes_of_int16 (map (fun x => ToInt16 (x * 32768)) data)).
Proof.
  unfold createBlob. cbn [blob_data]. rewrite fill_loop.
  now rewrite (map_seq_nth (fun x => ToInt16 (x * 32768)) 0%Q data).
Qed.

Lemma roundTrip_samples data rate :
  data <> [] ->
  roundTrip data rate
  = ok {| numberOfChannels := 1;
          buffer_length := length data;
          sampleRate := rate;
          channels := [map (fun x => (inject_Z (ToInt16 (x * 32768)) / 32768)%Q) data] |}.
Proof.
  intros Hne. unfold roundTrip.
  rewrite createBlob_data, encode_btoa, decode_btoa, bytes_of_binary. cbn [bind ok].
  set (int16 := map (fun x => ToInt16 (x * 32768)) data).
  assert (Hlen : length int16 = length data) by apply length_map.
  assert (Hfr : (length (bytes_of_int16 int16) / 2 / 1 = length data)%nat).
  { rewrite length_bytes_of_int16, Nat.div_1_r, Nat.mul_comm, Nat.div_mul by lia.
    exact Hlen. }
  rewrite decodeAudioData_even.
  - rewrite Hfr. f_equal. f_equal.
    rewrite int16_pairs_bytes.
    + unfold deinterleave. cbn [seq map]. f_equal.
      rewrite <- Hlen.
      rewrite (map_ext (fun i => (inject_Z (nth (i * 1 + 0)%nat int16 0%Z) / 32768)%Q)
                       (fun i => (inject_Z (nth i int16 0%Z) / 32768)%Q)).
      * rewrite (map_seq_nth (fun v => (inject_Z v / 32768)%Q) 0%Z int16).
        unfold int16. now rewrite map_map.
      * intros i. now rewrite Nat.mul_1_r, Nat.add_0_r.
    + unfold int16. apply Forall_map, Forall_forall. intros x _. apply ToInt16_range.
  - rewrite length_bytes_of_int16, Nat.mul_comm. apply Nat.Div0.mod_mul.
  - lia.
  - rewrite Hfr. destruct data; [congruence | cbn; lia].
Qed.

Lemma quot_bounds (n D : Z) :
  0 < D -> D * Z.quot n D - D < n < D * Z.quot n D + D.
Proof.
  intros HD. pose proof (Z.quot_rem' n D) as E.
  pose proof (Z.rem_bound_abs n D) as B. lia.
Qed.

Lemma truncate_int16 (x : Q) :
  (-1 <= x)%Q -> (x < 1)%Q -> is_int16 (truncate (x * 32768)).
Proof.
  destruct x as [a d]. unfold Qle, Qlt, is_int16, truncate. cbn.
  intros Hlo Hhi. rewrite Pos.mul_1_r.
  assert (Hd : 0 < Z.pos d) by lia.
  generalize dependent (Z.pos d). intros D Hlo Hhi HD.
  Z.to_euclidean_division_equations. nia.
Qed.

Lemma truncate_error (x : Q) :
  (Qabs (inject_Z (truncate (x * 32768)) / 32768 - x) < quantum)%Q.
Proof.
  apply Qabs_Qlt_condition.
  assert (H : (x * 32768 - 1 < inject_Z (truncate (x * 32768))
               /\ inject_Z (truncate (x * 32768)) < x * 32768 + 1)%Q).
  { generalize (x * 32768)%Q. intros [n d].
    unfold Qlt, truncate. cbn [Qnum Qden Qminus Qplus Qopp inject_Z].
    rewrite !Pos.mul_1_r, !Z.mul_1_r.
    pose proof (quot_bounds n (Z.pos d) eq_refl) as Hq.
    split; lia. }
  destruct H as [H1 H2]. unfold quantum.
  set (t := inject_Z (truncate (x * 32768))) in *.
  unfold Qdiv. change (/ 32768)%Q with (1 # 32768)%Q. clearbody t. split; lra.
Qed.

(** X13. Samples that stay below full scale survive the round trip up
    to one quantization step: the buffer keeps its length, and every decoded
    sample is the truncated one. *)
Lemma roundTrip_below_full_scale (data : list Q) (rate : Z) :
  data <> [] ->
  Forall (fun x => (-1 <= x)%Q /\ (x < 1)%Q) data ->
  exists out,
    roundTrip data rate
    = ok {| numberOfChannels := 1; buffer_length := length data;
            sampleRate := rate; channels := [out] |}
    /\ length out = length data
    /\ Forall2 (fun x y => (Qabs (y - x) < quantum)%Q) data out.
Proof.
  intros Hne Hrange.
  exists (map (fun x => (inject_Z (ToInt16 (x * 32768)) / 32768)%Q) data).
  split; [now apply roundTrip_samples|]. split; [apply length_map|].
  apply Forall2_fmap_r, Forall_Forall2_diag.
  eapply Forall_impl; [exact Hrange|]. intros x [Hlo Hhi]. unfold compose.
  rewrite ToInt16_small by now apply truncate_int16.
  apply truncate_error.
Qed.

Lemma roundTrip_zeros (n : nat) (rate : Z) :
  roundTrip (replicate (S n) 0%Q) rate
  = ok {| numberOfChannels := 1; buffer_length := S n;
          sampleRate := rate; channels := [replicate (S n) (0 # 32768)%Q] |}.
Proof.
  rewrite roundTrip_samples by discriminate.
  rewrite length_replicate. f_equal. f_equal. f_equal.
  generalize (S n). intros k. induction k as [|k IH]; [reflexivity|].
  cbn [replicate map]. now rewrite IH.
Qed.

(** C2, at a full-scale sample.  A buffer holding the sample 1.0 comes
    back from the round trip as the sample -1.0: the product 32768 does
    not fit 16 bits and wraps to -32768.  The decoded value is two whole
    units, not one quantization step, away from the original. *)
Theorem roundTrip_full_scale_wraps :
  exists y,
    roundTrip [1%Q] 24000
    = ok {| numberOfChannels := 1; buffer_length := 1;
            sampleRate := 24000; channels := [[y]] |}
    /\ (y == -1)%Q
    /\ ~ (Qabs (y - 1) <= quantum)%Q.
Proof.
  exists (-32768 # 32768)%Q. split; [|split].
  - vm_compute. reflexivity.
  - reflexivity.
  - vm_compute. intros H. apply H. reflexivity.
Qed.

(** ** Rejection of malformed frames *)

(** C5 (amended).  [decodeAudioData] throws the [RangeError] of the
    16-bit view exactly when the byte length is odd, whatever the channel
    count.  A buffer of even length is decoded: unless it holds no whole
    frame, the result has [byteLength / 2 / numChannels] frames per
    channel (rounded down), and samples beyond the last whole frame are
    ignored. *)
Theorem decodeAudioData_rejects_odd_length
    (data : list byte) (rate : Z) (numChannels : nat) :
  (decodeAudioData data rate numChannels = throw RangeError
   <-> (length data mod 2 = 1)%nat)
  /\ decodeAudioData data rate numChannels
     = if negb (length data mod 2 =? 0)%nat then throw RangeError
       else if (numChannels =? 0)%nat || (length data / 2 / numChannels =? 0)%nat
            then throw NotSupportedError
            else ok {| numberOfChannels := numChannels;
                       buffer_length := (length data / 2 / numChannels)%nat;
                       sampleRate := rate;
                       channels := deinterleave (int16_pairs data) numChannels
                                     (length data / 2 / numChannels) |}.
Proof.
  assert (E : decodeAudioData data rate numChannels
     = if negb (length data mod 2 =? 0)%nat then throw RangeError
       else if (numChannels =? 0)%nat || (length data / 2 / numChannels =? 0)%nat
            then throw NotSupportedError
            else ok {| numberOfChannels := numChannels;
                       buffer_length := (length data / 2 / numChannels)%nat;
                       sampleRate := rate;
                       channels := deinterleave (int16_pairs data) numChannels
                                     (length data / 2 / numChannels) |}).
  { destruct (length data mod 2 =? 0)%nat eqn:Heven; cbn [negb].
    - apply Nat.eqb_eq in Heven.
      destruct numChannels as [|nc].
      + unfold decodeAudioData, Int16Array_of_buffer, createBuffer.
        rewrite Heven. reflexivity.
      + cbn [Nat.eqb orb].
        destruct (length data / 2 / S nc =? 0)%nat eqn:Hfr.
        * apply Nat.eqb_eq in Hfr.
          unfold decodeAudioData, Int16Array_of_buffer, createBuffer.
          rewrite Heven. cbn [Nat.eqb bind ok]. cbv zeta.
          rewrite length_int16_pairs, truncate_nonneg_ratio, Nat2Z.id, Hfr by lia.
          reflexivity.
        * apply Nat.eqb_neq in Hfr. apply decodeAudioData_even; lia.
    - unfold decodeAudioData, Int16Array_of_buffer. rewrite Heven. reflexivity. }
  split; [|exact E].
  rewrite E. pose proof (Nat.mod_upper_bound (length data) 2).
  destruct (length data mod 2 =? 0)%nat eqn:Heven; cbn [negb].
  - apply Nat.eqb_eq in Heven. split; [|lia].
    destruct (_ || _); discriminate.
  - apply Nat.eqb_neq in Heven. split; [lia | reflexivity].
Qed.

(** C5, counterexample to the wording of the specification: a buffer of
    six bytes read as two channels is not a multiple of four bytes long,
    and it is decoded, into one frame per channel. *)
Lemma decodeAudioData_accepts_partial_frame :
  (length [x00; x01; x02; x03; x04; x05] mod (2 * 2) <> 0)%nat
  /\ decodeAudioData [x00; x01; x02; x03; x04; x05] 24000 2
     = ok {| numberOfChannels := 2; buffer_length := 1; sampleRate := 24000;
             channels := [[(256 # 32768)%Q]; [(770 # 32768)%Q]] |}.
Proof. split; [discriminate | vm_compute; reflexivity]. Qed.

(** ** The HUD store *)

(** The visits of the sweep, over any list of keys: an entry of the
    original object is gone exactly when its key was visited and it is
    stale, and the flag is raised when something was deleted. *)
Lemma sweep_visits now (prev : gmap string HighlightData) (keys : list string) :
  let acc := foldl (sweep_visit now) (prev, false) keys in
  (forall part,
     acc.1 !! part
     = match prev !! part with
       | Some data =>
           if bool_decide (part ∈ keys) && stale now data then None else Some data
       | None => None
       end)
  /\ (acc.2 = false -> acc.1 = prev).
Proof.
  induction keys as [|key keys IH] using rev_ind; cbv zeta.
  - cbn [foldl fst snd]. split; [|reflexivity].
    intros part. destruct (prev !! part); reflexivity.
  - rewrite foldl_snoc. cbv zeta in IH. destruct IH as [IH1 IH2].
    destruct (foldl (sweep_visit now) (prev, false) keys) as [next changed].
    cbn [fst snd] in *. unfold sweep_visit. cbn [fst snd].
    pose proof (IH1 key) as Hkey.
    assert (Hin : forall part, part <> key ->
              bool_decide (part ∈ keys ++ [key]) = bool_decide (part ∈ keys)).
    { intros part Hne. apply bool_decide_ext. rewrite elem_of_app, list_elem_of_singleton.
      tauto. }
    assert (Hkin : bool_decide (key ∈ keys ++ [key]) = true).
    { apply bool_decide_eq_true. rewrite elem_of_app, list_elem_of_singleton. tauto. }
    destruct (next !! key) as [data|] eqn:Enext.
    + destruct (prev !! key) as [data'|] eqn:Eprev; [|discriminate].
      destruct (bool_decide (key ∈ keys) && stale now data') eqn:Eold; [discriminate|].
      injection Hkey as <-.
      fold (stale now data). destruct (stale now data) eqn:Est; cbn [fst snd].
      * split; [|discriminate]. intros part.
        destruct (decide (part = key)) as [->|Hne].
        -- rewrite lookup_delete_eq, Eprev, Hkin, Est. reflexivity.
        -- rewrite lookup_delete_ne by congruence. rewrite IH1, (Hin part Hne). reflexivity.
      * split; [|exact IH2]. intros part.
        destruct (decide (part = key)) as [->|Hne].
        -- rewrite Enext, Eprev, Est, andb_false_r. reflexivity.
        -- rewrite IH1, (Hin part Hne). reflexivity.
    + cbn [fst snd]. split; [|exact IH2]. intros part.
      destruct (decide (part = key)) as [->|Hne].
      * rewrite Enext. destruct (prev !! key) as [data'|] eqn:Eprev; [|reflexivity].
        rewrite Hkin. cbn [andb].
        destruct (bool_decide (key ∈ keys)); cbn [andb] in Hkey.
        -- destruct (stale now data'); [reflexivity | discriminate].
        -- discriminate.
      * rewrite IH1, (Hin part Hne). reflexivity.
Qed.

(** The sweep as a whole: it keeps exactly the entries that are not
    stale. *)
Lemma sweep_lookup now (prev : gmap string HighlightData) part :
  sweep now prev !! part
  = match prev !! part with
    | Some data => if stale now data then None else Some data
    | None => None
    end.
Proof.
  unfold sweep.
  pose proof (sweep_visits now prev (map_to_list prev).*1) as H. cbv zeta in H.
  destruct (foldl (sweep_visit now) (prev, false) (map_to_list prev).*1)
    as [next changed].
  cbn [fst snd] in H. destruct H as [H1 H2].
  assert (Hspec : next !! part
                  = match prev !! part with
                    | Some data => if stale now data then None else Some data
                    | None => None
                    end).
  { rewrite H1. destruct (prev !! part) as [data|] eqn:E; [|reflexivity].
    assert (Hin : part ∈ (map_to_list prev).*1).
    { apply list_elem_of_fmap. exists (part, data). split; [reflexivity|].
      now apply elem_of_map_to_list. }
    rewrite (bool_decide_eq_true_2 _ Hin). reflexivity. }
  destruct changed; [exact Hspec|]. specialize (H2 eq_refl). subst next. exact Hspec.
Qed.

(** C6. For every annotation in the store and every [sweep(now)]: the
    annotation is removed when [now - lastUpdated] exceeds 7000 ms and
    kept when it is at most 7000 ms. *)
Theorem sweep_removes_stale (now : Z) (store : gmap string HighlightData)
    (part : string) (data : HighlightData) :
  store !! part = Some data ->
  (7000 < now - lastUpdated data -> sweep now store !! part = None)
  /\ (now - lastUpdated data <= 7000 -> sweep now store !! part = Some data).
Proof.
  intros Hpart. rewrite sweep_lookup, Hpart. unfold stale.
  split; intros H.
  - apply Z.ltb_lt in H. now rewrite H.
  - apply Z.ltb_ge in H. now rewrite H.
Qed.

Lemma sweep_removes_stale_witness :
  let store : gmap string HighlightData :=
    <["knees" := mkHighlight "critical" "Knees caving in" 1000]>
      (<["spine" := mkHighlight "optimal" "Neutral spine" 5000]> ∅) in
  sweep 9000 store !! "knees" = None
  /\ sweep 9000 store !! "spine" = Some (mkHighlight "optimal" "Neutral spine" 5000).
Proof.
  cbv zeta. split.
  - apply (sweep_removes_stale 9000 _ "knees" (mkHighlight "critical" "Knees caving in" 1000));
      [reflexivity | cbn; lia].
  - apply (sweep_removes_stale 9000 _ "spine" (mkHighlight "optimal" "Neutral spine" 5000));
      [reflexivity | cbn; lia].
Defined.

Lemma last_call_snoc part calls c :
  last_call part (calls ++ [c])
  = if decide (call_part c = part) then Some c else last_call part calls.
Proof.
  unfold last_call. rewrite filter_app, filter_cons, filter_nil.
  destruct (decide (call_part c = part)).
  - apply last_snoc.
  - now rewrite app_nil_r.
Qed.

Lemma apply_upserts_lookup (store : gmap string HighlightData)
    (calls : list UpsertCall) (part : string) :
  apply_upserts store calls !! part
  = match last_call part calls with
    | Some c => Some (annotation_of c)
    | None => store !! part
    end.
Proof.
  induction calls as [|c calls IH] using rev_ind; [reflexivity|].
  unfold apply_upserts in *. rewrite foldl_snoc, last_call_snoc.
  unfold upsert at 1.
  destruct (decide (call_part c = part)) as [<-|Hne].
  - now rewrite lookup_insert_eq.
  - now rewrite lookup_insert_ne.
Qed.

(** C8. After any sequence of [upsert] calls the store holds at most one
    annotation per body part (its entries have pairwise distinct keys),
    and the annotation of a part is the one written by the most recent
    call for that part; a part without a call keeps what it had. *)
Theorem upserts_keep_latest (store : gmap string HighlightData)
    (calls : list UpsertCall) :
  NoDup (map_to_list (apply_upserts store calls)).*1
  /\ forall part,
       apply_upserts store calls !! part
       = match last_call part calls with
         | Some c => Some (annotation_of c)
         | None => store !! part
         end.
Proof.
  split; [apply NoDup_fst_map_to_list | apply apply_upserts_lookup].
Qed.

(** The tool-call loop of [onmessage] applies [upsert] for each call of
    the HUD tool. *)
Lemma handleFunctionCall_highlights now st fc :
  highlights (handleFunctionCall now st fc)
  = if String.eqb (fc_name fc) "updateAnatomyHighlight"
    then upsert (arg_part fc) (arg_status fc) (arg_feedback fc) now (highlights st)
    else highlights st.
Proof.
  unfold handleFunctionCall.
  destruct (String.eqb (fc_name fc) "updateAnatomyHighlight"); [|reflexivity].
  destruct (negb (String.eqb (arg_status fc) "optimal")); reflexivity.
Qed.

(** ** Effects of the handlers *)

Lemma call_effects_tool fc : Forall tool_effect (call_effects fc).
Proof.
  unfold call_effects. destruct (String.eqb _ _); repeat constructor.
Qed.

Lemma handleFunctionCall_hud now st fc :
  fc_name fc = "updateAnatomyHighlight" ->
  handleFunctionCall now st fc
  = with_hud (upsert (arg_part fc) (arg_status fc) (arg_feedback fc) now (highlights st))
      (if String.eqb (arg_status fc) "optimal" then syncing st else true)
      (call_effects fc) st.
Proof.
  intros Hname. unfold handleFunctionCall, call_effects. rewrite Hname.
  change ("updateAnatomyHighlight" =? "updateAnatomyHighlight")%string with true.
  cbv iota. destruct (String.eqb (arg_status fc) "optimal"); cbn [negb].
  - reflexivity.
  - unfold with_hud, emit, set_syncing, set_highlights. cbn. now rewrite <- app_assoc.
Qed.

Lemma handleFunctionCall_other now st fc :
  fc_name fc <> "updateAnatomyHighlight" -> handleFunctionCall now st fc = st.
Proof.
  intros Hname. unfold handleFunctionCall.
  destruct (String.eqb_spec (fc_name fc) "updateAnatomyHighlight"); [contradiction|].
  reflexivity.
Qed.

Lemma with_hud_id st : with_hud (highlights st) (syncing st) [] st = st.
Proof. destruct st. unfold with_hud. cbn. now rewrite app_nil_r. Qed.

Lemma with_hud_with_hud h s new h' s' new' st :
  with_hud h' s' new' (with_hud h s new st) = with_hud h' s' (new ++ new') st.
Proof. unfold with_hud. cbn. now rewrite app_assoc. Qed.

(** The whole tool-call loop changes the HUD store, the sync flag and
    the trace, and issues only fault logs and acknowledgments. *)
Lemma handleToolCall_hud now message st :
  exists h s new,
    handleToolCall now message st = with_hud h s new st /\ Forall tool_effect new.
Proof.
  unfold handleToolCall. destruct (toolCall message) as [fcs|].
  - revert st. induction fcs as [|fc fcs IH] using rev_ind; intros st.
    + exists (highlights st), (syncing st), []. split; [now rewrite with_hud_id | constructor].
    + rewrite foldl_snoc. destruct (IH st) as (h & s & new & -> & Hnew).
      destruct (String.eqb_spec (fc_name fc) "updateAnatomyHighlight") as [Hname|Hname].
      * rewrite handleFunctionCall_hud by exact Hname. rewrite with_hud_with_hud.
        eexists _, _, _. split; [reflexivity|].
        apply Forall_app. split; [exact Hnew | apply call_effects_tool].
      * rewrite handleFunctionCall_other by exact Hname. eauto.
  - exists (highlights st), (syncing st), []. split; [now rewrite with_hud_id | constructor].
Qed.




(** ** What the handlers leave alone *)

Lemma connects_app l k : connects (l ++ k) = (connects l + connects k)%nat.
Proof. unfold connects. now rewrite filter_app, length_app. Qed.

Lemma quiet_refl st : quiet st st.
Proof. split; [reflexivity|]. exists []. now rewrite app_nil_r. Qed.

Lemma quiet_trans st1 st2 st3 : quiet st1 st2 -> quiet st2 st3 -> quiet st1 st3.
Proof.
  intros [H1 (n1 & T1 & C1)] [H2 (n2 & T2 & C2)]. split; [congruence|].
  exists (n1 ++ n2). rewrite T2, T1, <- app_assoc, connects_app, C1, C2. auto.
Qed.

Lemma quiet_emit e st : is_connect e = false -> quiet st (emit e st).
Proof.
  intros He. split; [reflexivity|]. exists [e]. split; [reflexivity|].
  unfold connects. rewrite filter_cons, filter_nil.
  destruct (decide (is_connect e = true)); [congruence | reflexivity].
Qed.

Lemma quiet_same_trace st st' :
  sweepInterval st' = sweepInterval st -> trace st' = trace st -> quiet st st'.
Proof.
  intros H1 H2. split; [exact H1|]. exists []. now rewrite app_nil_r.
Qed.

Lemma quiet_connects st st' : quiet st st' -> connects (trace st') = connects (trace st).
Proof. intros [_ (new & -> & C)]. rewrite connects_app, C. lia. Qed.

Lemma quiet_stops l st : quiet st (foldl (fun st s => emit (SourceStop s) st) st l).
Proof.
  revert st. induction l as [|s l IH]; intros st; cbn [foldl].
  - apply quiet_refl.
  - eapply quiet_trans; [|apply IH]. now apply quiet_emit.
Qed.

Lemma quiet_stopSession st : quiet st (stopSession st).
Proof.
  unfold stopSession.
  set (st1 := set_outputAudioContextRef _ _).
  assert (H1 : quiet st st1) by (apply quiet_same_trace; reflexivity).
  set (st2 := if sessionPromiseRef st1 then emit CloseChannel st1 else st1).
  assert (H2 : quiet st1 st2).
  { unfold st2. destruct (sessionPromiseRef st1); [now apply quiet_emit | apply quiet_refl]. }
  set (st3 := set_sessionPromiseRef false st2).
  assert (H3 : quiet st2 st3) by (apply quiet_same_trace; reflexivity).
  assert (H4 : quiet st3 (stopSources st3)) by apply quiet_stops.
  eapply quiet_trans; [exact H1|]. eapply quiet_trans; [exact H2|].
  eapply quiet_trans; [exact H3|]. eapply quiet_trans; [exact H4|].
  apply quiet_same_trace; reflexivity.
Qed.

Lemma quiet_with_hud h s new st : Forall tool_effect new -> quiet st (with_hud h s new st).
Proof.
  intros Hnew. split; [reflexivity|]. exists new. split; [reflexivity|].
  induction Hnew as [|e new He _ IH]; [reflexivity|].
  unfold connects in *. rewrite filter_cons.
  destruct (decide (is_connect e = true)) as [Hc|_]; [|exact IH].
  destruct e; cbn in He, Hc; solve [contradiction | discriminate].
Qed.

Lemma quiet_playAudio currentTime message st st' :
  playAudio currentTime message st = ok st' -> quiet st st'.
Proof.
  unfold playAudio. destruct (audioData_of message) as [audioData|].
  - destruct (truthy audioData && has_context (outputAudioContextRef st)).
    + destruct (decode audioData) as [e|bytes]; [discriminate|]. cbn [bind].
      destruct (decodeAudioData bytes 24000 1) as [e|audioBuffer]; [discriminate|].
      cbn [bind ok]. intros [= <-]. unfold schedulePlayback.
      split; [reflexivity|]. eexists [_]. split; reflexivity.
    + intros [= <-]. apply quiet_refl.
  - intros [= <-]. apply quiet_refl.
Qed.

Lemma quiet_handleInterrupted message st : quiet st (handleInterrupted message st).
Proof.
  unfold handleInterrupted. destruct (interrupted message); [|apply quiet_refl].
  eapply quiet_trans; [apply quiet_stops|]. apply quiet_same_trace; reflexivity.
Qed.

Lemma quiet_onmessage now currentTime message st st' :
  onmessage now currentTime message st = ok st' -> quiet st st'.
Proof.
  unfold onmessage.
  destruct (playAudio currentTime message st) as [e|st1] eqn:E1; [discriminate|].
  cbn [bind ok]. intros [= <-].
  eapply quiet_trans; [exact (quiet_playAudio _ _ _ _ E1)|].
  destruct (handleToolCall_hud now message st1) as (h & s & new & -> & Hnew).
  eapply quiet_trans; [exact (quiet_with_hud h s new st1 Hnew)|].
  apply quiet_handleInterrupted.
Qed.

Ltac case_if :=
  match goal with
  | |- context [if ?b then _ else _] => destruct b
  end.

(** No handler but the two of the component life cycle touches the expiry
    timer, and only the session button opens a connection. *)
Lemma step_quiet st ev st' :
  step st ev = Some st' ->
  (ev <> Mount -> ev <> Unmount -> sweepInterval st' = sweepInterval st)
  /\ (ev <> ClickSession -> connects (trace st') = connects (trace st)).
Proof.
  destruct ev; cbn [step]; intros Hstep.
  - injection Hstep as <-. split; [congruence | reflexivity].
  - injection Hstep as <-. split; [congruence | reflexivity].
  - destruct (sweepInterval st) eqn:E; [|discriminate]. injection Hstep as <-.
    split; [intros _ _; exact E | reflexivity].
  - injection Hstep as <-. unfold toggleCamera, stopCamera.
    destruct (hasCamera st); [|destruct granted]; split; reflexivity.
  - destruct (negb (hasCamera st) || loading st); [discriminate|].
    injection Hstep as <-. split; [|congruence]. intros _ _.
    destruct (isActive st); [apply quiet_stopSession|].
    unfold startSession. destruct (negb (hasCamera st)); reflexivity.
  - injection Hstep as <-. unfold onopen. destruct st. cbn.
    repeat case_if; split; reflexivity.
  - destruct (onmessage now currentTime message st) as [e|st1] eqn:E;
      injection Hstep as <-; [split; reflexivity|].
    apply quiet_onmessage in E. split; intros; [apply E | now apply quiet_connects].
  - injection Hstep as <-.
    assert (Q : quiet st (onerror st)).
    { eapply quiet_trans; [apply (quiet_emit ConsoleError st eq_refl)|].
      apply quiet_same_trace; reflexivity. }
    split; intros; [apply Q | now apply quiet_connects].
  - injection Hstep as <-. pose proof (quiet_stopSession st) as Q.
    split; intros; [apply Q | now apply quiet_connects].
  - injection Hstep as <-. split; reflexivity.
  - injection Hstep as <-. split; reflexivity.
  - destruct (syncTimeouts st); [discriminate|]. injection Hstep as <-.
    split; reflexivity.
Qed.

Lemma run_sweepInterval st evs st' :
  run st evs = Some st' -> Mount ∉ evs -> Unmount ∉ evs ->
  sweepInterval st' = sweepInterval st.
Proof.
  revert st. induction evs as [|ev evs IH]; intros st Hrun HM HU; cbn [run] in Hrun.
  - now injection Hrun as <-.
  - destruct (step st ev) as [st1|] eqn:E; [|discriminate].
    rewrite not_elem_of_cons in HM, HU.
    rewrite (IH st1 Hrun) by tauto.
    apply (step_quiet _ _ _ E); intros ->; tauto.
Qed.

Lemma run_connects st evs st' :
  run st evs = Some st' -> ClickSession ∉ evs ->
  connects (trace st') = connects (trace st).
Proof.
  revert st. induction evs as [|ev evs IH]; intros st Hrun HC; cbn [run] in Hrun.
  - now injection Hrun as <-.
  - destruct (step st ev) as [st1|] eqn:E; [|discriminate].
    rewrite not_elem_of_cons in HC.
    rewrite (IH st1 Hrun) by tauto.
    apply (step_quiet _ _ _ E). intros ->; tauto.
Qed.

(** ** Transport errors *)

Lemma stops_fold l st :
  foldl (fun st s => emit (SourceStop s) st) st l
  = mkState (isActive st) (hasCamera st) (loading st) (syncing st) (transcription st)
      (highlights st) (streamRef st) (sessionPromiseRef st) (frameInterval st)
      (scriptProcessor st) (inputAudioContextRef st) (outputAudioContextRef st)
      (nextStartTimeRef st) (audioSourcesRef st) (sweepInterval st) (syncTimeouts st)
      (nextSource st) (trace st ++ map SourceStop l).
Proof.
  revert st. induction l as [|s l IH]; intros st; cbn [foldl map].
  - rewrite app_nil_r. now destruct st.
  - rewrite IH. unfold emit. cbn. now rewrite <- app_assoc.
Qed.

Lemma stopSession_outcome st :
  let st' := stopSession st in
  isActive st' = false /\ loading st' = false
  /\ frameInterval st' = false /\ scriptProcessor st' = false
  /\ sessionPromiseRef st' = false /\ audioSourcesRef st' = []
  /\ highlights st' = ∅
  /\ trace st' = trace st
                 ++ (if sessionPromiseRef st then [CloseChannel] else [])
                 ++ map SourceStop (audioSourcesRef st).
Proof.
  cbv zeta. unfold stopSession, stopSources. rewrite stops_fold.
  destruct st as [? ? ? ? ? ? ? sp ? ? ? ? ? ? ? ? ? ?]. cbn.
  destruct sp; cbn; repeat split; try reflexivity; now rewrite <- app_assoc.
Qed.

(** C1 (amended).  On a transport error the handler logs the error and
    shows the link-failure status, and nothing else: the session stays
    active, the producers keep running, the channel stays open and the
    HUD store is kept.  No connection is opened by anything but the
    session button, so there is no automatic reconnection.  The
    teardown of stop() runs on the close event. *)
Theorem onerror_reports_link_failure (st : State) (evs : list Event) (st' : State) :
  run (onerror st) evs = Some st' ->
  ClickSession ∉ evs ->
  (transcription (onerror st) = "LINK FAILURE. RE-ESTABLISHING..."
   /\ trace (onerror st) = trace st ++ [ConsoleError]
   /\ isActive (onerror st) = isActive st
   /\ frameInterval (onerror st) = frameInterval st
   /\ scriptProcessor (onerror st) = scriptProcessor st
   /\ sessionPromiseRef (onerror st) = sessionPromiseRef st
   /\ audioSourcesRef (onerror st) = audioSourcesRef st
   /\ highlights (onerror st) = highlights st)
  /\ connects (trace st') = connects (trace st)
  /\ (isActive (onclose st) = false
      /\ frameInterval (onclose st) = false
      /\ scriptProcessor (onclose st) = false
      /\ sessionPromiseRef (onclose st) = false
      /\ audioSourcesRef (onclose st) = []
      /\ highlights (onclose st) = ∅
      /\ trace (onclose st)
         = trace st ++ (if sessionPromiseRef st then [CloseChannel] else [])
             ++ map SourceStop (audioSourcesRef st)).
Proof.
  intros Hrun Hclick. split; [|split].
  - repeat split; reflexivity.
  - rewrite (run_connects _ _ _ Hrun Hclick).
    change (trace (onerror st)) with (trace st ++ [ConsoleError]).
    rewrite connects_app. change (connects [ConsoleError]) with 0%nat. lia.
  - destruct (stopSession_outcome st) as (H1 & _ & H2 & H3 & H4 & H5 & H6 & H7).
    unfold onclose. auto 10.
Qed.

Lemma onerror_reports_link_failure_witness :
  (ClickSession ∉ [SweepTick 2000; OnClose])
  /\ connects (trace (state_after (session_events ++ [OnError; SweepTick 2000; OnClose])))
     = connects (trace active_session).
Proof.
  assert (H : ClickSession ∉ [SweepTick 2000; OnClose]).
  { rewrite !not_elem_of_cons. repeat split; try discriminate. apply not_elem_of_nil. }
  split; [exact H|].
  apply (onerror_reports_link_failure active_session [SweepTick 2000; OnClose]
           (state_after (session_events ++ [OnError; SweepTick 2000; OnClose])));
    [vm_compute; reflexivity | exact H].
Defined.

(** C1, counterexample to the wording of the specification: after the
    error handler ran on an open session, the session is still active,
    both producers still run, the channel is still referenced and was not
    closed, and the HUD store still holds its annotation. *)
Lemma onerror_leaves_session_running :
  isActive active_session = true
  /\ step active_session OnError = Some (onerror active_session)
  /\ isActive (onerror active_session) = true
  /\ frameInterval (onerror active_session) = true
  /\ scriptProcessor (onerror active_session) = true
  /\ sessionPromiseRef (onerror active_session) = true
  /\ highlights (onerror active_session) !! "knees"
     = Some (mkHighlight "critical" "Knees caving in" 1000)
  /\ trace (onerror active_session)
     = [Connect;
        LogBiomechanicalFault "knees" "critical" "Knees caving in";
        SendToolResponse "call-7" "updateAnatomyHighlight" "HUD LAYER UPDATED & PERSISTED";
        ConsoleError].
Proof. repeat split; vm_compute; reflexivity. Qed.

(** ** Lifetime of the expiry timer *)

Lemma run_armed st evs st' :
  sweepInterval st = Some 1000 -> run st evs = Some st' -> Unmount ∉ evs ->
  sweepInterval st' = Some 1000.
Proof.
  revert st. induction evs as [|ev evs IH]; intros st Harmed Hrun HU; cbn [run] in Hrun.
  - now injection Hrun as <-.
  - destruct (step st ev) as [st1|] eqn:E; [|discriminate].
    rewrite not_elem_of_cons in HU. apply (IH st1); [|exact Hrun|tauto].
    destruct (step_quiet _ _ _ E) as [Hsweep _].
    destruct ev; try (rewrite Hsweep by discriminate; exact Harmed).
    + cbn in E. now injection E as <-.
    + tauto.
Qed.

(** C7 (amended).  The expiry timer is armed with a period of 1000 ms
    when the component mounts and cleared when it unmounts.  Nothing
    else touches it: through any events short of an unmount, starting
    and stopping sessions included, it stays armed and its callback can
    fire, whether or not a session is active. *)
Theorem sweep_timer_follows_component (st : State) (evs : list Event) (st' : State)
    (now : Z) :
  sweepInterval st = Some 1000 ->
  run st evs = Some st' ->
  Unmount ∉ evs ->
  sweepInterval st' = Some 1000
  /\ step st' (SweepTick now) = Some (sweepTick now st')
  /\ sweepInterval (mount st') = Some 1000
  /\ sweepInterval (unmount st') = None
  /\ step (unmount st') (SweepTick now) = None.
Proof.
  intros Harmed Hrun HU.
  pose proof (run_armed _ _ _ Harmed Hrun HU) as H.
  split; [exact H|]. split; [|repeat split].
  cbn [step]. now rewrite H.
Qed.

Lemma sweep_timer_follows_component_witness :
  sweepInterval (mount initial) = Some 1000
  /\ sweepInterval (state_after idle_events) = Some 1000.
Proof.
  split; [reflexivity|].
  apply (sweep_timer_follows_component (mount initial)
           [ToggleCamera true; ClickSession; OnOpen; ClickSession;
            OnMessage 1000 0 tool_message]
           (state_after idle_events) 9000);
    [reflexivity | vm_compute; reflexivity |].
  rewrite !not_elem_of_cons. repeat split; try discriminate. apply not_elem_of_nil.
Defined.

(** C7, counterexample to the wording of the specification: after a
    session was stopped no session is active, yet the timer fires and
    sweeps an annotation that a late tool call had written. *)
Lemma sweep_fires_while_idle :
  match run initial idle_events with
  | Some st =>
      isActive st = false
      /\ sessionPromiseRef st = false
      /\ highlights st !! "knees" = Some (mkHighlight "critical" "Knees caving in" 1000)
      /\ match step st (SweepTick 9000) with
         | Some st' => highlights st' !! "knees" = None
         | None => False
         end
  | None => False
  end.
Proof. vm_compute. repeat split. Qed.

(** ** Scheduling of playback *)

Lemma playAudio_clip currentTime message st :
  has_context (outputAudioContextRef st) = true ->
  playAudio currentTime message st
  = match clip_of message with
    | Some (inr audioBuffer) => ok (schedulePlayback currentTime audioBuffer st)
    | Some (inl e) => throw e
    | None => ok st
    end.
Proof.
  intros Hctx. unfold playAudio, clip_of.
  destruct (audioData_of message) as [audioData|]; [|reflexivity].
  rewrite Hctx, andb_true_r. destruct (truthy audioData); [|reflexivity].
  destruct (decode audioData) as [e|bytes]; [reflexivity|]. cbn [bind].
  destruct (decodeAudioData bytes 24000 1); reflexivity.
Qed.

(** Nothing in [onmessage] catches the exception of a decoder: a payload
    that does not decode makes the handler fail before the tool calls and
    the interruption signal of the same message are looked at, and the
    state of the component stays as it was. *)
Lemma onmessage_undecodable_payload now currentTime message st e :
  has_context (outputAudioContextRef st) = true ->
  clip_of message = Some (throw e) ->
  onmessage now currentTime message st = throw e
  /\ step st (OnMessage now currentTime message) = Some st.
Proof.
  intros Hctx Hclip.
  assert (E : onmessage now currentTime message st = throw e).
  { unfold onmessage. rewrite playAudio_clip by exact Hctx. now rewrite Hclip. }
  split; [exact E|]. cbn [step]. now rewrite E.
Qed.

Lemma scheduled_app l k : scheduled (l ++ k) = scheduled l ++ scheduled k.
Proof. unfold scheduled. apply flat_map_app. Qed.

Lemma scheduled_tool_effects new : Forall tool_effect new -> scheduled new = [].
Proof.
  induction 1 as [|e new He _ IH]; [reflexivity|].
  destruct e; cbn in He; try contradiction; exact IH.
Qed.

Lemma onmessage_shape now currentTime message st st' :
  onmessage now currentTime message st = ok st' ->
  exists st1 h s new,
    playAudio currentTime message st = ok st1
    /\ st' = handleInterrupted message (with_hud h s new st1)
    /\ Forall tool_effect new.
Proof.
  unfold onmessage.
  destruct (playAudio currentTime message st) as [e|st1]; [discriminate|].
  cbn [bind ok]. intros [= <-].
  destruct (handleToolCall_hud now message st1) as (h & s & new & -> & Hnew).
  exists st1, h, s, new. auto.
Qed.

Lemma spec_schedule_app cursor clips1 clips2 :
  spec_schedule cursor (clips1 ++ clips2)
  = spec_schedule cursor clips1 ++ spec_schedule (spec_cursor cursor clips1) clips2.
Proof.
  revert cursor. induction clips1 as [|[clock b] clips1 IH]; intros cursor; [reflexivity|].
  cbn [app spec_schedule spec_cursor]. cbv zeta. now rewrite IH.
Qed.

Lemma spec_cursor_app cursor clips1 clips2 :
  spec_cursor cursor (clips1 ++ clips2) = spec_cursor (spec_cursor cursor clips1) clips2.
Proof.
  revert cursor. induction clips1 as [|[clock b] clips1 IH]; intros cursor; [reflexivity|].
  cbn [app spec_cursor]. now rewrite IH.
Qed.

(** One message without interruption: its clip, if it has one that
    decodes, is scheduled as the specification says. *)
Lemma step_message_schedule st now currentTime message :
  has_context (outputAudioContextRef st) = true ->
  interrupted message = false ->
  exists st',
    step st (OnMessage now currentTime message) = Some st'
    /\ has_context (outputAudioContextRef st') = true
    /\ scheduled (trace st')
       = scheduled (trace st)
         ++ spec_schedule (nextStartTimeRef st) (clips_of [(now, currentTime, message)])
    /\ nextStartTimeRef st'
       = spec_cursor (nextStartTimeRef st) (clips_of [(now, currentTime, message)]).
Proof.
  intros Hctx Hint. cbn [step clips_of flat_map]. rewrite app_nil_r.
  destruct (onmessage now currentTime message st) as [e|st'] eqn:E.
  - exists st. split; [reflexivity|]. split; [exact Hctx|].
    unfold onmessage in E. rewrite playAudio_clip in E by exact Hctx.
    destruct (clip_of message) as [[e'|audioBuffer]|]; try discriminate.
    cbn. now rewrite app_nil_r.
  - exists st'. split; [reflexivity|].
    destruct (onmessage_shape _ _ _ _ _ E) as (st1 & h & s & new & Hplay & -> & Hnew).
    unfold handleInterrupted. rewrite Hint.
    unfold with_hud. cbn [outputAudioContextRef trace nextStartTimeRef].
    rewrite scheduled_app, (scheduled_tool_effects _ Hnew), app_nil_r.
    rewrite playAudio_clip in Hplay by exact Hctx.
    destruct (clip_of message) as [[e'|audioBuffer]|]; try discriminate;
      injection Hplay as <-.
    + unfold schedulePlayback. cbn. rewrite scheduled_app. cbn.
      split; [exact Hctx|]. split; reflexivity.
    + cbn. rewrite app_nil_r. split; [exact Hctx|]. split; reflexivity.
Qed.

Lemma clips_of_cons i inputs : clips_of (i :: inputs) = clips_of [i] ++ clips_of inputs.
Proof. unfold clips_of. cbn [flat_map]. now rewrite app_nil_r. Qed.

Lemma run_messages_schedule st (inputs : list (Z * Q * LiveServerMessage)) :
  has_context (outputAudioContextRef st) = true ->
  Forall (fun i => interrupted i.2 = false) inputs ->
  exists st',
    run st (message_events inputs) = Some st'
    /\ scheduled (trace st')
       = scheduled (trace st) ++ spec_schedule (nextStartTimeRef st) (clips_of inputs)
    /\ nextStartTimeRef st' = spec_cursor (nextStartTimeRef st) (clips_of inputs).
Proof.
  intros Hctx Hint. revert st Hctx.
  induction Hint as [|[[now currentTime] message] inputs Hm _ IH]; intros st Hctx.
  - exists st. cbn. now rewrite app_nil_r.
  - cbn [snd] in Hm.
    destruct (step_message_schedule st now currentTime message Hctx Hm)
      as (st1 & Hstep & Hctx1 & Hsched1 & Hcur1).
    destruct (IH st1 Hctx1) as (st' & Hrun & Hsched & Hcur).
    exists st'. cbn [message_events map run].
    fold (message_events inputs). rewrite Hstep. split; [exact Hrun|].
    rewrite (clips_of_cons (now, currentTime, message) inputs).
    rewrite spec_schedule_app, spec_cursor_app, Hsched, Hcur, Hsched1, Hcur1.
    now rewrite <- app_assoc.
Qed.

Lemma spec_schedule_sequential cursor clips : sequential (spec_schedule cursor clips).
Proof.
  revert cursor. induction clips as [|[clock b] clips IH]; intros cursor; [exact I|].
  cbn [spec_schedule]. cbv zeta. cbn [sequential]. split; [|apply IH].
  destruct clips as [|[clock' b'] clips']; [exact I|].
  cbn [spec_schedule]. cbv zeta. apply Q.le_max_l.
Qed.

(** Three clips, the first arriving at clock time [T] and each of the
    others before the one before it has ended, start at [T], then after
    the first, then after the second. *)
Lemma three_clips_back_to_back cursor T t2 t3 b1 b2 b3 :
  (cursor <= T)%Q ->
  (t2 <= T + duration b1)%Q ->
  (t3 <= T + duration b1 + duration b2)%Q ->
  exists s1 s2 s3,
    spec_schedule cursor [(T, b1); (t2, b2); (t3, b3)] = [(s1, b1); (s2, b2); (s3, b3)]
    /\ (s1 == T)%Q /\ (s2 == T + duration b1)%Q
    /\ (s3 == T + duration b1 + duration b2)%Q.
Proof.
  intros Hc H2 H3. cbn [spec_schedule]. cbv zeta.
  eexists _, _, _. split; [reflexivity|].
  assert (E1 : (Qmax cursor T == T)%Q) by now apply Q.max_r.
  assert (E2 : (Qmax (Qmax cursor T + duration b1) t2 == T + duration b1)%Q).
  { rewrite Q.max_l; [now rewrite E1 | now rewrite E1]. }
  split; [exact E1|]. split; [exact E2|].
  rewrite Q.max_l; [now rewrite E2 | now rewrite E2].
Qed.

Lemma carries_clip_of message audioBuffer :
  carries_clip message audioBuffer -> clip_of message = Some (ok audioBuffer).
Proof.
  intros (payload & rest & Hturn & Hne & Hdec).
  unfold clip_of, audioData_of. rewrite Hturn. cbn [inlineData].
  unfold truthy. apply String.eqb_neq in Hne. rewrite Hne. cbn [negb].
  now rewrite Hdec.
Qed.

Lemma carries_undecodable_of message e :
  carries_undecodable message e -> clip_of message = Some (throw e).
Proof.
  intros (payload & rest & Hturn & Hne & Hdec).
  unfold clip_of, audioData_of. rewrite Hturn. cbn [inlineData].
  unfold truthy. apply String.eqb_neq in Hne. rewrite Hne. cbn [negb].
  now rewrite Hdec.
Qed.

Lemma audio_inputs_clips (inputs : list (Z * Q * LiveServerMessage * AudioBuffer)) :
  Forall (fun i => interrupted i.1.2 = false /\ carries_clip i.1.2 i.2) inputs ->
  message_events (map fst inputs) = audio_events inputs
  /\ clips_of (map fst inputs) = audio_clips inputs
  /\ Forall (fun i => interrupted i.2 = false) (map fst inputs).
Proof.
  induction 1 as [|[[[now currentTime] message] audioBuffer] inputs [Hint Hclip] _
                    (IH1 & IH2 & IH3)].
  - repeat split. apply Forall_nil_2.
  - cbn [fst snd] in Hint, Hclip. cbn [map fst]. split; [|split].
    + cbn [message_events audio_events map fst snd]. f_equal. exact IH1.
    + rewrite clips_of_cons, IH2. unfold clips_of at 1. cbn [flat_map].
      rewrite (carries_clip_of _ _ Hclip). reflexivity.
    + apply Forall_cons_2; [exact Hint | exact IH3].
Qed.

(** X1. For every sequence of audio messages received in order by a
    session with an output context, none of them interrupted: each clip
    is started at the larger of the playback cursor and the clock
    reading at its arrival, and the cursor is then advanced by the
    duration of the clip, so that no clip starts before the one before
    it has ended.  Three clips of 2 s, 1 s and 3 s, arriving at clock
    time T and while playback is still ahead of the clock, start at T,
    T + 2 and T + 3 when the cursor is not ahead of T at the first. *)
Theorem audio_messages_schedule (st : State)
    (inputs : list (Z * Q * LiveServerMessage * AudioBuffer)) :
  has_context (outputAudioContextRef st) = true ->
  Forall (fun i => interrupted i.1.2 = false /\ carries_clip i.1.2 i.2) inputs ->
  exists st',
    run st (audio_events inputs) = Some st'
    /\ scheduled (trace st')
       = scheduled (trace st)
         ++ spec_schedule (nextStartTimeRef st) (audio_clips inputs)
    /\ nextStartTimeRef st' = spec_cursor (nextStartTimeRef st) (audio_clips inputs)
    /\ sequential (spec_schedule (nextStartTimeRef st) (audio_clips inputs))
    /\ forall T t2 t3 b1 b2 b3,
         audio_clips inputs = [(T, b1); (t2, b2); (t3, b3)] ->
         (nextStartTimeRef st <= T)%Q ->
         (duration b1 == 2)%Q -> (duration b2 == 1)%Q -> (duration b3 == 3)%Q ->
         (t2 <= T + 2)%Q -> (t3 <= T + 3)%Q ->
         exists s1 s2 s3,
           scheduled (trace st')
           = scheduled (trace st) ++ [(s1, b1); (s2, b2); (s3, b3)]
           /\ (s1 == T)%Q /\ (s2 == T + 2)%Q /\ (s3 == T + 3)%Q.
Proof.
  intros Hctx Hin.
  destruct (audio_inputs_clips inputs Hin) as (Hev & Hclips & Hint).
  destruct (run_messages_schedule st (map fst inputs) Hctx Hint)
    as (st' & Hrun & Hsched & Hcur).
  rewrite Hev in Hrun. rewrite Hclips in Hsched, Hcur.
  exists st'. split; [exact Hrun|]. split; [exact Hsched|]. split; [exact Hcur|].
  split; [apply spec_schedule_sequential|].
  intros T t2 t3 b1 b2 b3 Hthree Hc D1 D2 D3 H2 H3.
  destruct (three_clips_back_to_back (nextStartTimeRef st) T t2 t3 b1 b2 b3)
    as (s1 & s2 & s3 & E & E1 & E2 & E3).
  - exact Hc.
  - lra.
  - lra.
  - exists s1, s2, s3. rewrite Hsched, Hthree, E.
    split; [reflexivity|]. split; [exact E1|]. split; lra.
Qed.

Lemma carries_one_frame : carries_clip (audio_message "AAA=") one_frame.
Proof.
  exists "AAA=", []. split; [reflexivity|]. split; [discriminate|].
  vm_compute. reflexivity.
Qed.

Lemma carries_two_frames : carries_clip (audio_message "AAAAAA==") two_frames.
Proof.
  exists "AAAAAA==", []. split; [reflexivity|]. split; [discriminate|].
  vm_compute. reflexivity.
Qed.

Lemma audio_messages_schedule_witness :
  has_context (outputAudioContextRef open_session) = true
  /\ Forall (fun i => interrupted i.1.2 = false /\ carries_clip i.1.2 i.2) two_inputs
  /\ exists st',
       run open_session (audio_events two_inputs) = Some st'
       /\ scheduled (trace st')
          = [(5%Q, one_frame); ((120001 # 24000)%Q, two_frames)].
Proof.
  assert (H1 : has_context (outputAudioContextRef open_session) = true) by reflexivity.
  assert (H2 : Forall (fun i => interrupted i.1.2 = false /\ carries_clip i.1.2 i.2)
                 two_inputs).
  { repeat apply Forall_cons_2; try apply Forall_nil_2;
      (split; [reflexivity|]); [apply carries_one_frame | apply carries_two_frames]. }
  split; [exact H1|]. split; [exact H2|].
  destruct (audio_messages_schedule open_session two_inputs H1 H2)
    as (st' & Hrun & Hsched & _).
  exists st'. split; [exact Hrun | exact Hsched].
Defined.

(** C3, at the first clip of a second session.  Stopping a session
    stops and forgets the pending sources, as an interruption does, but
    leaves the playback cursor where it was, and starting a session does
    not reset it either.  The clip that arrives in the second session
    while its clock reads 0 is therefore scheduled at the cursor of the
    first session, 5 s and three frames, not at the clock reading. *)
Theorem restart_schedules_at_stale_cursor :
  run initial restart_events = Some (state_after restart_events)
  /\ (nextStartTimeRef playing_session == 120003 # 24000)%Q
  /\ nextStartTimeRef (stopSession playing_session) = nextStartTimeRef playing_session
  /\ audioSourcesRef (stopSession playing_session) = []
  /\ map fst (scheduled (trace (state_after restart_events)))
     = [5%Q; (120001 # 24000)%Q; nextStartTimeRef playing_session]
  /\ ~ (nextStartTimeRef playing_session == 0)%Q.
Proof.
  split; [vm_compute; reflexivity|]. split; [vm_compute; reflexivity|].
  split; [vm_compute; reflexivity|]. split; [vm_compute; reflexivity|].
  split; [vm_compute; reflexivity|]. vm_compute. discriminate.
Qed.

(** ** Interruption *)








(** The two clips of the example run are scheduled back to back from the
    clock reading of the first: at 5 s and at 5 s plus one frame. *)
Example two_clips_schedule :
  map fst (scheduled (trace playing_session)) = [5%Q; (120001 # 24000)%Q].
Proof. vm_compute. reflexivity. Qed.

(** * Further properties of the code *)

(** ** The audio codec *)

Lemma roundTrip_below_full_scale_witness :
  exists out,
    roundTrip [0%Q; (1 # 2)%Q; (-1)%Q] 16000
    = ok {| numberOfChannels := 1; buffer_length := 3;
            sampleRate := 16000; channels := [out] |}
    /\ length out = 3%nat
    /\ Forall2 (fun x y => (Qabs (y - x) < quantum)%Q) [0%Q; (1 # 2)%Q; (-1)%Q] out.
Proof.
  apply (roundTrip_below_full_scale [0%Q; (1 # 2)%Q; (-1)%Q] 16000).
  - discriminate.
  - repeat apply Forall_cons_2; try apply Forall_nil_2; split; vm_compute; congruence.
Defined.

Lemma byte_of_Z_of_byte b : byte_of_Z (Z_of_byte b) = b.
Proof.
  unfold byte_of_Z, Z_of_byte. rewrite N2Z.id, Byte.of_to_N. reflexivity.
Qed.

Lemma int16_pairs_range data : Forall is_int16 (int16_pairs data).
Proof.
  revert data. fix IH 1. intros [|lo [|hi data]];
    [apply Forall_nil_2 | apply Forall_nil_2 |].
  cbn [int16_pairs]. cbv zeta. apply Forall_cons_2; [|apply IH].
  pose proof (Z_of_byte_range lo) as Hlo. pose proof (Z_of_byte_range hi) as Hhi.
  unfold is_byte in *. unfold is_int16.
  destruct (32768 <=? _) eqn:E; [apply Z.leb_le in E | apply Z.leb_gt in E]; lia.
Qed.

Lemma bytes_of_int16_pairs data :
  (length data mod 2 = 0)%nat -> bytes_of_int16 (int16_pairs data) = data.
Proof.
  revert data. fix IH 1. intros [|lo [|hi data]] Heven;
    [reflexivity | discriminate |].
  cbn [int16_pairs bytes_of_int16 flat_map app]. cbv zeta.
  fold (bytes_of_int16 (int16_pairs data)). rewrite (IH data).
  - pose proof (Z_of_byte_range lo) as Hlo. pose proof (Z_of_byte_range hi) as Hhi.
    unfold is_byte in *.
    set (u := Z_of_byte lo + 256 * Z_of_byte hi).
    assert (Hu : (if 32768 <=? u then u - 65536 else u) mod 65536 = u).
    { destruct (32768 <=? u) eqn:E;
        [apply Z.leb_le in E | apply Z.leb_gt in E]; unfold u in *; divlia. }
    rewrite Hu.
    replace (u mod 256) with (Z_of_byte lo) by (unfold u; divlia).
    replace (u / 256) with (Z_of_byte hi) by (unfold u; divlia).
    now rewrite !byte_of_Z_of_byte.
  - cbn [length] in Heven.
    change (S (S (length data))) with (1 * 2 + length data)%nat in Heven.
    rewrite Nat.add_comm, Nat.Div0.mod_add in Heven. exact Heven.
Qed.

Lemma ToInt16_of_decoded v :
  is_int16 v -> ToInt16 (inject_Z v / 32768 * 32768) = v.
Proof.
  intros Hv. rewrite ToInt16_small.
  - unfold truncate. cbn. rewrite Z.mul_1_r. apply Z.quot_mul. discriminate.
  - unfold truncate. cbn. rewrite Z.mul_1_r, Z.quot_mul by discriminate. exact Hv.
Qed.

(** What a successful call of [decodeAudioData] was given, and what it
    returns. *)
Lemma decodeAudioData_inv data rate numChannels audioBuffer :
  decodeAudioData data rate numChannels = ok audioBuffer ->
  (length data mod 2 = 0)%nat /\ (0 < numChannels)%nat
  /\ (0 < length data / 2 / numChannels)%nat
  /\ audioBuffer
     = {| numberOfChannels := numChannels;
          buffer_length := (length data / 2 / numChannels)%nat;
          sampleRate := rate;
          channels := deinterleave (int16_pairs data) numChannels
                        (length data / 2 / numChannels) |}.
Proof.
  intros H.
  destruct (length data mod 2 =? 0)%nat eqn:Heven.
  - apply Nat.eqb_eq in Heven.
    destruct numChannels as [|nc].
    + unfold decodeAudioData, Int16Array_of_buffer, createBuffer in H.
      rewrite Heven in H. discriminate.
    + destruct (Nat.eq_dec (length data / 2 / S nc)%nat 0%nat) as [Hfr|Hfr].
      * unfold decodeAudioData, Int16Array_of_buffer, createBuffer in H.
        rewrite Heven in H. cbn [Nat.eqb bind ok] in H. cbv zeta in H.
        rewrite length_int16_pairs, truncate_nonneg_ratio, Nat2Z.id, Hfr in H by lia.
        discriminate.
      * rewrite decodeAudioData_even in H by lia.
        injection H as <-. repeat split; lia.
  - unfold decodeAudioData, Int16Array_of_buffer in H. rewrite Heven in H. discriminate.
Qed.

Lemma deinterleave_mono (dataInt16 : list Z) :
  deinterleave dataInt16 1 (length dataInt16)
  = [map (fun v => (inject_Z v / 32768)%Q) dataInt16].
Proof.
  unfold deinterleave. cbn [seq map]. f_equal.
  rewrite <- (map_seq_nth (fun v => (inject_Z v / 32768)%Q) 0%Z dataInt16).
  apply map_ext. intros i. now rewrite Nat.mul_1_r, Nat.add_0_r.
Qed.

(** X2. Decoding a one-channel payload and encoding the samples again
    gives the payload back, byte for byte: the 16-bit values are fixed
    points of the quantization. *)
Theorem createBlob_of_decoded (data : list byte) (rate : Z) :
  (length data mod 2 = 0)%nat ->
  data <> [] ->
  exists samples,
    decodeAudioData data rate 1
    = ok {| numberOfChannels := 1; buffer_length := (length data / 2)%nat;
            sampleRate := rate; channels := [samples] |}
    /\ blob_data (createBlob samples) = encode data.
Proof.
  intros Heven Hne.
  assert (Hpos : (0 < length data / 2)%nat).
  { destruct data as [|a [|b data]]; [congruence | discriminate |].
    cbn [length]. change (S (S (length data))) with (1 * 2 + length data)%nat.
    rewrite Nat.div_add_l by lia. lia. }
  exists (map (fun v => (inject_Z v / 32768)%Q) (int16_pairs data)). split.
  - rewrite decodeAudioData_even by (rewrite ?Nat.div_1_r; lia).
    rewrite Nat.div_1_r. f_equal. f_equal.
    rewrite <- (length_int16_pairs data). apply deinterleave_mono.
  - rewrite createBlob_data, map_map. f_equal.
    rewrite (map_ext_in _ id).
    + rewrite map_id. now apply bytes_of_int16_pairs.
    + intros v Hv. apply ToInt16_of_decoded.
      pose proof (int16_pairs_range data) as Hr. rewrite Forall_forall in Hr.
      apply Hr. now apply list_elem_of_In.
Qed.

Lemma createBlob_of_decoded_witness :
  exists samples,
    decodeAudioData [x00; x80; xff; x7f] 24000 1
    = ok {| numberOfChannels := 1; buffer_length := 2;
            sampleRate := 24000; channels := [samples] |}
    /\ blob_data (createBlob samples) = encode [x00; x80; xff; x7f].
Proof.
  apply (createBlob_of_decoded [x00; x80; xff; x7f] 24000); [reflexivity | discriminate].
Defined.

Lemma normalised_range v :
  is_int16 v -> (-1 <= inject_Z v / 32768)%Q /\ (inject_Z v / 32768 < 1)%Q.
Proof.
  unfold is_int16, Qle, Qlt. cbn. lia.
Qed.

Lemma nth_int16 (l : list Z) k : Forall is_int16 l -> is_int16 (nth k l 0).
Proof.
  intros H. destruct (nth_in_or_default k l 0) as [Hin| ->].
  - rewrite Forall_forall in H. apply H. now apply list_elem_of_In.
  - unfold is_int16. lia.
Qed.

(** X3. Whatever [decodeAudioData] returns without an exception is a
    well-formed buffer: it has the requested channel count and rate, at
    least one frame, every channel has exactly that many samples, and
    every sample lies in [-1, 1). *)
Theorem decodeAudioData_shape (data : list byte) (rate : Z) (numChannels : nat)
    (audioBuffer : AudioBuffer) :
  decodeAudioData data rate numChannels = ok audioBuffer ->
  numberOfChannels audioBuffer = numChannels
  /\ sampleRate audioBuffer = rate
  /\ (0 < buffer_length audioBuffer)%nat
  /\ buffer_length audioBuffer = (length data / 2 / numChannels)%nat
  /\ length (channels audioBuffer) = numChannels
  /\ Forall (fun channelData =>
               length channelData = buffer_length audioBuffer
               /\ Forall (fun s => (-1 <= s)%Q /\ (s < 1)%Q) channelData)
       (channels audioBuffer).
Proof.
  intros H. apply decodeAudioData_inv in H as (Heven & Hnc & Hfr & ->).
  cbn [numberOfChannels sampleRate buffer_length channels].
  repeat split; try reflexivity; try exact Hfr.
  - unfold deinterleave. now rewrite length_map, length_seq.
  - unfold deinterleave. apply Forall_map, Forall_forall. intros c _. split.
    + now rewrite length_map, length_seq.
    + apply Forall_map, Forall_forall. intros i _. cbn beta.
      apply normalised_range, nth_int16, int16_pairs_range.
Qed.

Lemma decodeAudioData_shape_witness :
  exists audioBuffer,
    decodeAudioData [x00; x01; x02; x03; x04; x05] 24000 2 = ok audioBuffer
    /\ buffer_length audioBuffer = 1%nat
    /\ length (channels audioBuffer) = 2%nat.
Proof.
  eexists. split; [vm_compute; reflexivity|].
  assert (H : decodeAudioData [x00; x01; x02; x03; x04; x05] 24000 2
              = ok {| numberOfChannels := 2; buffer_length := 1; sampleRate := 24000;
                      channels := [[(256 # 32768)%Q]; [(770 # 32768)%Q]] |})
    by (vm_compute; reflexivity).
  destruct (decodeAudioData_shape _ _ _ _ H) as (_ & _ & _ & Hl & Hc & _).
  split; [exact Hl | exact Hc].
Defined.

(** X4. The payload of [createBlob] always decodes, for samples of any
    size, and holds exactly two bytes per sample. *)
Theorem createBlob_payload (data : list Q) :
  exists bytes,
    decode (blob_data (createBlob data)) = ok bytes
    /\ length bytes = (2 * length data)%nat
    /\ mimeType (createBlob data) = "audio/pcm;rate=16000".
Proof.
  exists (bytes_of_int16 (map (fun x => ToInt16 (x * 32768)) data)).
  split; [|split].
  - now rewrite createBlob_data, encode_btoa, decode_btoa, bytes_of_binary.
  - now rewrite length_bytes_of_int16, length_map.
  - reflexivity.
Qed.

(** ** The HUD store: expiry *)

(** X5. Sweeps compose: a sweep after an earlier sweep leaves what a
    single sweep at the later time leaves. *)
Theorem sweep_sweep (now1 now2 : Z) (store : gmap string HighlightData) :
  now1 <= now2 ->
  sweep now2 (sweep now1 store) = sweep now2 store.
Proof.
  intros Hle. apply map_eq. intros part. rewrite !sweep_lookup.
  destruct (store !! part) as [data|]; [|reflexivity].
  unfold stale. destruct (7000 <? now1 - lastUpdated data) eqn:E1.
  - apply Z.ltb_lt in E1.
    assert (E2 : (7000 <? now2 - lastUpdated data) = true) by (apply Z.ltb_lt; lia).
    now rewrite E2.
  - reflexivity.
Qed.

Lemma sweep_sweep_witness :
  let store : gmap string HighlightData :=
    <["knees" := mkHighlight "critical" "Knees caving in" 1000]>
      (<["spine" := mkHighlight "optimal" "Neutral spine" 5000]> ∅) in
  8500 <= 12500 /\ sweep 12500 (sweep 8500 store) = sweep 12500 store.
Proof.
  cbv zeta. split; [lia|]. apply sweep_sweep. lia.
Defined.

(** X6. A sweep only removes: what it leaves is a part of the store,
    and it leaves the store as it is exactly when no annotation is
    older than 7000 ms. *)
Theorem sweep_subset (now : Z) (store : gmap string HighlightData) :
  sweep now store ⊆ store
  /\ (sweep now store = store
      <-> forall part data,
            store !! part = Some data -> now - lastUpdated data <= 7000).
Proof.
  split; [|split].
  - apply map_subseteq_spec. intros part data. rewrite sweep_lookup.
    destruct (store !! part) as [data'|]; [|discriminate].
    destruct (stale now data'); [discriminate | auto].
  - intros E part data Hpart.
    assert (H : sweep now store !! part = Some data) by now rewrite E.
    rewrite sweep_lookup, Hpart in H. unfold stale in H.
    destruct (7000 <? now - lastUpdated data) eqn:E1; [discriminate|].
    now apply Z.ltb_ge in E1.
  - intros H. apply map_eq. intros part. rewrite sweep_lookup.
    destruct (store !! part) as [data|] eqn:Hpart; [|reflexivity].
    unfold stale. apply H in Hpart. apply Z.ltb_ge in Hpart. now rewrite Hpart.
Qed.

(** X7. An upsert restarts the expiry of its part, whatever the store
    held for it: the annotation survives every sweep up to 7000 ms after
    the call and is removed by a later one; the other parts expire as if
    the call had not happened. *)
Theorem upsert_restarts_expiry (part st fb : string) (t now : Z)
    (store : gmap string HighlightData) :
  (now - t <= 7000 ->
   sweep now (upsert part st fb t store) !! part = Some (mkHighlight st fb t))
  /\ (7000 < now - t -> sweep now (upsert part st fb t store) !! part = None)
  /\ forall part', part' <> part ->
       sweep now (upsert part st fb t store) !! part' = sweep now store !! part'.
Proof.
  unfold upsert. split; [|split].
  - intros H. rewrite sweep_lookup, lookup_insert_eq. unfold stale. cbn.
    apply Z.ltb_ge in H. now rewrite H.
  - intros H. rewrite sweep_lookup, lookup_insert_eq. unfold stale. cbn.
    apply Z.ltb_lt in H. now rewrite H.
  - intros part' Hne. rewrite !sweep_lookup, lookup_insert_ne by congruence. reflexivity.
Qed.


(** ** Stopping a session *)

(** The state that [stopSession] leaves, field by field. *)
Lemma stopSession_eq (st : State) :
  stopSession st
  = mkState false (hasCamera st) false (syncing st) "Uplink terminated." ∅
      (streamRef st) false false false
      (close_context (inputAudioContextRef st))
      (close_context (outputAudioContextRef st))
      (nextStartTimeRef st) [] (sweepInterval st) (syncTimeouts st) (nextSource st)
      (trace st ++ (if sessionPromiseRef st then [CloseChannel] else [])
         ++ map SourceStop (audioSourcesRef st)).
Proof.
  destruct st as [a hc l sy tr hl sr sp fi scp ic oc ns asr sw sto nx trc].
  unfold stopSession, stopSources. cbn. destruct sp; cbn; rewrite stops_fold; cbn;
    now rewrite <- ?app_assoc.
Qed.

(** X8. Stopping is idempotent: a second stop, such as the close event
    that follows a stop by the user, changes nothing, closes no channel
    and stops no source again. *)
Theorem stopSession_idempotent (st : State) :
  stopSession (stopSession st) = stopSession st
  /\ onclose (stopSession st) = stopSession st.
Proof.
  assert (H : stopSession (stopSession st) = stopSession st).
  { rewrite (stopSession_eq (stopSession st)), (stopSession_eq st). cbn.
    rewrite app_nil_r.
    destruct (inputAudioContextRef st), (outputAudioContextRef st); reflexivity. }
  split; exact H.
Qed.

(** ** The tool-call loop of a message *)

Lemma acks_app l k : acks (l ++ k) = acks l ++ acks k.
Proof. unfold acks. apply flat_map_app. Qed.

Lemma fault_logs_app l k : fault_logs (l ++ k) = fault_logs l ++ fault_logs k.
Proof. unfold fault_logs. apply flat_map_app. Qed.

Lemma hud_calls_snoc fcs fc :
  hud_calls (fcs ++ [fc])
  = hud_calls fcs ++ (if String.eqb (fc_name fc) "updateAnatomyHighlight" then [fc] else []).
Proof.
  unfold hud_calls. rewrite filter_app, filter_cons, filter_nil.
  destruct (String.eqb_spec (fc_name fc) "updateAnatomyHighlight") as [E|E];
    destruct (decide _); try contradiction; reflexivity.
Qed.

(** X9. The tool calls of a message are served in order: the HUD store
    receives one upsert per call of the HUD tool, one acknowledgment is
    sent per such call with its id, and one fault is logged per such
    call whose status is not optimal, all in the order of the calls;
    calls of other names leave no mark. *)
Theorem handleToolCall_in_order (now : Z) (message : LiveServerMessage) (st : State) :
  let calls := hud_calls (default [] (toolCall message)) in
  let st' := handleToolCall now message st in
  highlights st'
  = apply_upserts (highlights st)
      (map (fun fc => (arg_part fc, arg_status fc, arg_feedback fc, now)) calls)
  /\ acks (trace st')
     = acks (trace st)
       ++ map (fun fc => (fc_id fc, fc_name fc, "HUD LAYER UPDATED & PERSISTED")) calls
  /\ fault_logs (trace st')
     = fault_logs (trace st)
       ++ map (fun fc => (arg_part fc, arg_status fc, arg_feedback fc))
            (filter (fun fc => arg_status fc <> "optimal") calls).
Proof.
  cbv zeta. unfold handleToolCall.
  destruct (toolCall message) as [fcs|]; unfold default; cbn [from_option id];
    [|cbn; now rewrite !app_nil_r].
  induction fcs as [|fc fcs IH] using rev_ind.
  - cbn. now rewrite !app_nil_r.
  - rewrite foldl_snoc, hud_calls_snoc.
    destruct IH as (IH1 & IH2 & IH3).
    destruct (String.eqb_spec (fc_name fc) "updateAnatomyHighlight") as [Hname|Hname].
    + rewrite handleFunctionCall_hud by exact Hname.
      unfold with_hud, call_effects. cbn [highlights trace].
      rewrite !map_app, filter_app, map_app. cbn [map].
      unfold apply_upserts in *. rewrite foldl_snoc. cbn [fst snd call_part].
      rewrite IH1, !acks_app, !fault_logs_app, IH2, IH3.
      rewrite filter_cons, filter_nil.
      destruct (String.eqb_spec (arg_status fc) "optimal") as [E|E];
        destruct (decide (arg_status fc <> "optimal")); try contradiction;
        cbn; rewrite ?app_nil_r, <- ?app_assoc; auto.
    + rewrite handleFunctionCall_other by exact Hname.
      rewrite !app_nil_r. auto.
Qed.

(** ** Messages whose parts interact *)

(** X10. A message whose audio payload does not decode is dropped whole
    by a session with an output context: the handler throws while
    decoding, and the tool calls and the interruption signal of the same
    message have no effect; the state of the component is unchanged. *)
Theorem undecodable_audio_drops_message (now : Z) (currentTime : Q)
    (message : LiveServerMessage) (e : JsError) (st : State) :
  has_context (outputAudioContextRef st) = true ->
  carries_undecodable message e ->
  onmessage now currentTime message st = throw e
  /\ step st (OnMessage now currentTime message) = Some st.
Proof.
  intros Hctx Hbad. apply onmessage_undecodable_payload; [exact Hctx|].
  now apply carries_undecodable_of.
Qed.

Lemma undecodable_audio_drops_message_witness :
  let message :=
    mkMessage (Some [mkPart (Some "AAAA")]) (Some [knees_critical]) true in
  carries_undecodable message RangeError
  /\ onmessage 1000 5 message open_session = throw RangeError
  /\ step open_session (OnMessage 1000 5 message) = Some open_session.
Proof.
  cbv zeta.
  assert (H : carries_undecodable
                (mkMessage (Some [mkPart (Some "AAAA")]) (Some [knees_critical]) true)
                RangeError).
  { exists "AAAA", []. split; [reflexivity|]. split; [discriminate|].
    vm_compute. reflexivity. }
  split; [exact H|].
  apply (undecodable_audio_drops_message 1000 5 _ RangeError open_session);
    [reflexivity | exact H].
Defined.

(** X11. A message that carries a clip together with the interruption
    signal starts the clip and cuts it at once: the new source is
    started, then stopped with all pending ones, and the message leaves
    no pending source and a cursor of zero. *)
Theorem interrupted_clip_is_cut (now : Z) (currentTime : Q)
    (message : LiveServerMessage) (audioBuffer : AudioBuffer) (st : State) :
  has_context (outputAudioContextRef st) = true ->
  carries_clip message audioBuffer ->
  interrupted message = true ->
  exists st' mid,
    onmessage now currentTime message st = ok st'
    /\ trace st'
       = trace st
         ++ [SourceStart (nextSource st) (Qmax (nextStartTimeRef st) currentTime)
               audioBuffer]
         ++ mid
         ++ map SourceStop (set_add (nextSource st) (audioSourcesRef st))
    /\ Forall tool_effect mid
    /\ nextSource st ∈ set_add (nextSource st) (audioSourcesRef st)
    /\ audioSourcesRef st' = []
    /\ nextStartTimeRef st' = 0%Q.
Proof.
  intros Hctx Hclip Hint. apply carries_clip_of in Hclip.
  unfold onmessage. rewrite playAudio_clip by exact Hctx. rewrite Hclip. cbn [bind ok].
  match goal with
  | |- context [handleToolCall now message ?x] =>
      destruct (handleToolCall_hud now message x) as (h & s & new & -> & Hnew)
  end.
  unfold handleInterrupted. rewrite Hint. unfold stopSources. rewrite stops_fold.
  eexists _, new. split; [reflexivity|].
  destruct st as [a hc l sy tr hl sr sp fi scp ic oc ns asr sw sto nx trc].
  unfold schedulePlayback, with_hud. cbn.
  split; [now rewrite <- !app_assoc|]. split; [exact Hnew|].
  split; [|split; reflexivity].
  unfold set_add. destruct (bool_decide (nx ∈ asr)) eqn:E.
  - now apply bool_decide_eq_true in E.
  - apply elem_of_app. right. apply list_elem_of_singleton. reflexivity.
Qed.

Lemma interrupted_clip_is_cut_witness :
  let message := mkMessage (Some [mkPart (Some "AAA=")]) None true in
  carries_clip message one_frame
  /\ exists st' mid,
       onmessage 1002 6 message playing_session = ok st'
       /\ trace st'
          = trace playing_session
            ++ [SourceStart (nextSource playing_session)
                  (Qmax (nextStartTimeRef playing_session) 6) one_frame]
            ++ mid
            ++ map SourceStop (set_add (nextSource playing_session)
                                 (audioSourcesRef playing_session))
       /\ Forall tool_effect mid
       /\ nextSource playing_session
          ∈ set_add (nextSource playing_session) (audioSourcesRef playing_session)
       /\ audioSourcesRef st' = []
       /\ nextStartTimeRef st' = 0%Q.
Proof.
  cbv zeta.
  assert (H : carries_clip (mkMessage (Some [mkPart (Some "AAA=")]) None true) one_frame).
  { exists "AAA=", []. split; [reflexivity|]. split; [discriminate|].
    vm_compute. reflexivity. }
  split; [exact H|].
  apply (interrupted_clip_is_cut 1002 6
           (mkMessage (Some [mkPart (Some "AAA=")]) None true) one_frame playing_session);
    [reflexivity | exact H | reflexivity].
Defined.

(** ** The playback cursor *)

(** The state that scheduling a clip leaves, field by field. *)
Lemma schedulePlayback_eq (currentTime : Q) (audioBuffer : AudioBuffer) (st : State) :
  schedulePlayback currentTime audioBuffer st
  = mkState (isActive st) (hasCamera st) (loading st) (syncing st) (transcription st)
      (highlights st) (streamRef st) (sessionPromiseRef st) (frameInterval st)
      (scriptProcessor st) (inputAudioContextRef st) (outputAudioContextRef st)
      (Qmax (nextStartTimeRef st) currentTime + duration audioBuffer)%Q
      (set_add (nextSource st) (audioSourcesRef st))
      (sweepInterval st) (syncTimeouts st) (S (nextSource st))
      (trace st
       ++ [SourceStart (nextSource st) (Qmax (nextStartTimeRef st) currentTime)
             audioBuffer]).
Proof. destruct st. reflexivity. Qed.

Lemma duration_decoded data numChannels audioBuffer :
  decodeAudioData data 24000 numChannels = ok audioBuffer ->
  (0 < duration audioBuffer)%Q.
Proof.
  intros H. apply decodeAudioData_inv in H as (_ & _ & Hfr & ->).
  unfold duration. cbn [buffer_length sampleRate].
  apply Qlt_shift_div_l; [reflexivity|]. rewrite Qmult_0_l.
  change 0%Q with (inject_Z 0). rewrite <- Zlt_Qlt. lia.
Qed.

Lemma clip_duration message audioBuffer :
  clip_of message = Some (ok audioBuffer) -> (0 < duration audioBuffer)%Q.
Proof.
  unfold clip_of. destruct (audioData_of message) as [audioData|]; [|discriminate].
  destruct (truthy audioData); [|discriminate].
  destruct (decode audioData) as [e|bytes]; [discriminate|]. cbn [bind].
  intros [= H]. now apply duration_decoded in H.
Qed.

(** X12. Short of an interruption the playback cursor never moves back,
    and a message whose clip is scheduled leaves it strictly later than
    both the clock reading and its previous value. *)
Theorem cursor_never_retreats (now : Z) (currentTime : Q)
    (message : LiveServerMessage) (st st' : State) :
  interrupted message = false ->
  onmessage now currentTime message st = ok st' ->
  (nextStartTimeRef st <= nextStartTimeRef st')%Q
  /\ forall audioBuffer,
       has_context (outputAudioContextRef st) = true ->
       carries_clip message audioBuffer ->
       (currentTime < nextStartTimeRef st')%Q
       /\ (nextStartTimeRef st < nextStartTimeRef st')%Q.
Proof.
  intros Hint E.
  destruct (onmessage_shape _ _ _ _ _ E) as (st1 & h & s & new & Hplay & -> & _).
  unfold handleInterrupted. rewrite Hint.
  unfold with_hud. cbn [nextStartTimeRef]. split.
  - revert Hplay. unfold playAudio.
    destruct (audioData_of message) as [audioData|] eqn:Ea;
      [|intros [= <-]; apply Qle_refl].
    destruct (truthy audioData) eqn:Et; cbn [andb];
      [|intros [= <-]; apply Qle_refl].
    destruct (has_context (outputAudioContextRef st));
      [|intros [= <-]; apply Qle_refl].
    assert (Hclip : clip_of message
                    = Some (let* bytes := decode audioData in
                            decodeAudioData bytes 24000 1)).
    { unfold clip_of. now rewrite Ea, Et. }
    destruct (decode audioData) as [e|bytes]; [discriminate|]. cbn [bind] in *.
    destruct (decodeAudioData bytes 24000 1) as [e|audioBuffer]; [discriminate|].
    intros [= <-]. rewrite schedulePlayback_eq. cbn [nextStartTimeRef].
    pose proof (clip_duration _ _ Hclip) as Hd.
    pose proof (Q.le_max_l (nextStartTimeRef st) currentTime). lra.
  - intros audioBuffer Hctx Hclip. apply carries_clip_of in Hclip.
    rewrite playAudio_clip in Hplay by exact Hctx. rewrite Hclip in Hplay.
    revert Hplay. intros [= <-]. rewrite schedulePlayback_eq. cbn [nextStartTimeRef].
    pose proof (clip_duration _ _ Hclip) as Hd.
    pose proof (Q.le_max_l (nextStartTimeRef st) currentTime).
    pose proof (Q.le_max_r (nextStartTimeRef st) currentTime). split; lra.
Qed.

Lemma cursor_never_retreats_witness :
  let st' := state_after ([Mount; ToggleCamera true; ClickSession; OnOpen]
                          ++ [OnMessage 1000 5 (audio_message "AAA=")]) in
  (nextStartTimeRef open_session <= nextStartTimeRef st')%Q
  /\ (5 < nextStartTimeRef st')%Q
  /\ (nextStartTimeRef open_session < nextStartTimeRef st')%Q.
Proof.
  destruct (cursor_never_retreats 1000 5 (audio_message "AAA=") open_session
              (state_after ([Mount; ToggleCamera true; ClickSession; OnOpen]
                            ++ [OnMessage 1000 5 (audio_message "AAA=")]))
              eq_refl) as [H1 H2]; [vm_compute; reflexivity|].
  split; [exact H1|]. apply (H2 one_frame); [reflexivity | exact carries_one_frame].
Defined.

(** ** Invariants of the reachable states *)

Lemma closes_app l k : closes (l ++ k) = (closes l + closes k)%nat.
Proof. unfold closes. now rewrite filter_app, length_app. Qed.

Lemma started_app l k : started (l ++ k) = started l ++ started k.
Proof. unfold started. apply flat_map_app. Qed.

Lemma inert_effects new :
  Forall inert new -> connects new = 0%nat /\ closes new = 0%nat /\ started new = [].
Proof.
  induction 1 as [|e new He _ (IH1 & IH2 & IH3)]; [repeat split|].
  unfold connects, closes in *. rewrite !filter_cons.
  destruct e; cbn in He; try contradiction; cbn;
    repeat (destruct (decide _) as [D|D]; try discriminate D); auto.
Qed.

Lemma tool_effects_inert new : Forall tool_effect new -> Forall inert new.
Proof.
  intros H. eapply Forall_impl; [exact H|].
  intros e He. destruct e; cbn in *; auto.
Qed.

Lemma stops_inert l : Forall inert (map SourceStop l).
Proof. apply Forall_map, Forall_forall. intros s _. exact I. Qed.

(** A change that keeps the session flags, drops some pending sources
    and issues inert effects keeps the invariant. *)
Lemma invariant_inert st st' new :
  session_invariant st ->
  isActive st' = isActive st ->
  sessionPromiseRef st' = sessionPromiseRef st ->
  audioSourcesRef st' `sublist_of` audioSourcesRef st ->
  nextSource st' = nextSource st ->
  trace st' = trace st ++ new ->
  Forall inert new ->
  session_invariant st'.
Proof.
  intros (I1 & I2 & I3 & I4 & I5 & I6) Ha Hs Hsub Hn Ht Hnew.
  destruct (inert_effects new Hnew) as (C1 & C2 & C3).
  unfold session_invariant.
  rewrite Ha, Hs, Hn, Ht, connects_app, closes_app, started_app, C1, C2, C3, app_nil_r.
  repeat split; try assumption; try lia.
  - apply (sublist_NoDup _ (audioSourcesRef st)); assumption.
  - intros s Hin. apply I4. apply (elem_of_sublist (audioSourcesRef st')); assumption.
Qed.

Lemma invariant_schedule currentTime audioBuffer st :
  session_invariant st -> session_invariant (schedulePlayback currentTime audioBuffer st).
Proof.
  intros (I1 & I2 & I3 & I4 & I5 & I6). rewrite schedulePlayback_eq.
  unfold session_invariant.
  cbn [isActive sessionPromiseRef audioSourcesRef nextSource trace].
  assert (Hfresh : nextSource st ∉ started (trace st)).
  { intros Hin. rewrite Forall_forall in I5. apply I5 in Hin. lia. }
  assert (Hnew : nextSource st ∉ audioSourcesRef st) by (intros Hin; auto).
  unfold set_add. rewrite bool_decide_eq_false_2 by exact Hnew.
  rewrite connects_app, closes_app, started_app.
  change (connects [SourceStart (nextSource st)
                      (Qmax (nextStartTimeRef st) currentTime) audioBuffer]) with 0%nat.
  change (closes [SourceStart (nextSource st)
                    (Qmax (nextStartTimeRef st) currentTime) audioBuffer]) with 0%nat.
  change (started [SourceStart (nextSource st)
                     (Qmax (nextStartTimeRef st) currentTime) audioBuffer])
    with [nextSource st].
  repeat split.
  - exact I1.
  - lia.
  - apply NoDup_app. repeat split; [exact I3 | | apply NoDup_singleton].
    intros x Hx Hx'. apply list_elem_of_singleton in Hx'. subst x. contradiction.
  - intros s Hs. rewrite elem_of_app in *. destruct Hs as [Hs|Hs]; auto.
  - apply Forall_app. split.
    + eapply Forall_impl; [exact I5|]. cbn. intros; lia.
    + apply Forall_singleton. lia.
  - apply NoDup_app. repeat split; [exact I6 | | apply NoDup_singleton].
    intros x Hx Hx'. apply list_elem_of_singleton in Hx'. subst x. contradiction.
Qed.

Lemma invariant_stopSession st : session_invariant st -> session_invariant (stopSession st).
Proof.
  intros (I1 & I2 & I3 & I4 & I5 & I6). rewrite stopSession_eq.
  unfold session_invariant.
  cbn [isActive sessionPromiseRef audioSourcesRef nextSource trace].
  destruct (inert_effects _ (stops_inert (audioSourcesRef st))) as (C1 & C2 & C3).
  rewrite !connects_app, !closes_app, !started_app, C1, C2, C3, !app_nil_r.
  assert (Hc : (connects (if sessionPromiseRef st then [CloseChannel] else []) = 0
                /\ closes (if sessionPromiseRef st then [CloseChannel] else [])
                   = (if sessionPromiseRef st then 1 else 0)
                /\ started (if sessionPromiseRef st then [CloseChannel] else []) = [])%nat).
  { destruct (sessionPromiseRef st); repeat split. }
  destruct Hc as (-> & -> & ->). rewrite app_nil_r.
  split; [reflexivity|]. split; [lia|]. split; [apply NoDup_nil_2|].
  split; [|split; assumption].
  intros s Hs. apply elem_of_nil in Hs. contradiction.
Qed.

Lemma invariant_startSession st :
  session_invariant st -> isActive st = false -> session_invariant (startSession st).
Proof.
  intros Hinv Hact. unfold startSession.
  destruct (negb (hasCamera st)); [exact Hinv|].
  destruct st as [a hc l sy tr hl sr sp fi scp ic oc ns asr sw sto nx trc].
  unfold session_invariant in *. cbn in Hact. subst a.
  cbn -[connects closes started] in *.
  destruct Hinv as (I1 & I2 & I3 & I4 & I5 & I6). subst sp.
  rewrite connects_app, closes_app, started_app.
  change (connects [Connect]) with 1%nat. change (closes [Connect]) with 0%nat.
  change (started [Connect]) with (@nil nat). rewrite app_nil_r.
  repeat split; try assumption. lia.
Qed.

Lemma invariant_onmessage now currentTime message st st' :
  session_invariant st -> onmessage now currentTime message st = ok st' ->
  session_invariant st'.
Proof.
  intros Hinv E.
  destruct (onmessage_shape _ _ _ _ _ E) as (st1 & h & s & new & Hplay & -> & Hnew).
  assert (H1 : session_invariant st1).
  { revert Hplay. unfold playAudio.
    destruct (audioData_of message) as [audioData|]; [|now intros [= <-]].
    destruct (truthy audioData && has_context (outputAudioContextRef st));
      [|now intros [= <-]].
    destruct (decode audioData) as [e|bytes]; [discriminate|]. cbn [bind].
    destruct (decodeAudioData bytes 24000 1) as [e|audioBuffer]; [discriminate|].
    intros [= <-]. now apply invariant_schedule. }
  assert (H2 : session_invariant (with_hud h s new st1)).
  { apply (invariant_inert st1 _ new); try reflexivity; try assumption.
    now apply tool_effects_inert. }
  unfold handleInterrupted. destruct (interrupted message); [|exact H2].
  unfold stopSources. rewrite stops_fold.
  eapply (invariant_inert (with_hud h s new st1)); try reflexivity; try assumption.
  - apply sublist_nil_l.
  - apply stops_inert.
Qed.

Lemma step_invariant st ev st' :
  session_invariant st -> step st ev = Some st' -> session_invariant st'.
Proof.
  intros Hinv. destruct ev; cbn [step]; intros Hstep.
  - injection Hstep as <-. exact Hinv.
  - injection Hstep as <-. exact Hinv.
  - destruct (sweepInterval st); [|discriminate]. injection Hstep as <-. exact Hinv.
  - injection Hstep as <-. unfold toggleCamera, stopCamera.
    destruct (hasCamera st); [|destruct granted]; exact Hinv.
  - destruct (negb (hasCamera st) || loading st); [discriminate|].
    injection Hstep as <-. destruct (isActive st) eqn:Hact.
    + now apply invariant_stopSession.
    + now apply invariant_startSession.
  - injection Hstep as <-.
    apply (invariant_inert st _ []); try assumption; try apply Forall_nil_2;
      unfold onopen; destruct st; cbn; repeat case_if; cbn;
      rewrite ?app_nil_r; reflexivity.
  - destruct (onmessage now currentTime message st) as [e|st1] eqn:E;
      injection Hstep as <-; [exact Hinv|]. eapply invariant_onmessage; eassumption.
  - injection Hstep as <-.
    apply (invariant_inert st _ [ConsoleError]); try assumption; try reflexivity.
    now apply Forall_singleton.
  - injection Hstep as <-. now apply invariant_stopSession.
  - injection Hstep as <-.
    apply (invariant_inert st _ []); try assumption; try apply Forall_nil_2;
      try (cbn; now rewrite ?app_nil_r).
    cbn. apply sublist_filter.
  - injection Hstep as <-. exact Hinv.
  - destruct (syncTimeouts st); [discriminate|]. injection Hstep as <-. exact Hinv.
Qed.

Lemma run_invariant st evs st' :
  session_invariant st -> run st evs = Some st' -> session_invariant st'.
Proof.
  revert st. induction evs as [|ev evs IH]; intros st Hinv Hrun; cbn [run] in Hrun.
  - now injection Hrun as <-.
  - destruct (step st ev) as [st1|] eqn:E; [|discriminate].
    apply (IH st1); [|exact Hrun]. eapply step_invariant; eassumption.
Qed.

Lemma initial_invariant : session_invariant initial.
Proof.
  unfold session_invariant. cbn. repeat split; try apply NoDup_nil_2.
  - intros s Hs. apply elem_of_nil in Hs. contradiction.
  - apply Forall_nil_2.
Qed.
(** X14. Channels are opened and closed in pairs: in every state the
    component reaches, the session is flagged active exactly when a
    channel is referenced, and every connection that was opened, except
    the one that is open, has been closed exactly once. *)
Theorem channels_balance (evs : list Event) (st : State) :
  run initial evs = Some st ->
  isActive st = sessionPromiseRef st
  /\ connects (trace st)
     = (closes (trace st) + (if sessionPromiseRef st then 1 else 0))%nat.
Proof.
  intros Hrun.
  destruct (run_invariant _ _ _ initial_invariant Hrun) as (H1 & H2 & _).
  split; assumption.
Qed.

Lemma channels_balance_witness :
  run initial (idle_events ++ [ClickSession; OnError; OnClose; OnClose])
  = Some (state_after (idle_events ++ [ClickSession; OnError; OnClose; OnClose]))
  /\ connects (trace (state_after (idle_events ++ [ClickSession; OnError; OnClose; OnClose])))
     = 2%nat
  /\ closes (trace (state_after (idle_events ++ [ClickSession; OnError; OnClose; OnClose])))
     = 2%nat.
Proof.
  assert (H : run initial (idle_events ++ [ClickSession; OnError; OnClose; OnClose])
              = Some (state_after (idle_events ++ [ClickSession; OnError; OnClose; OnClose])))
    by (vm_compute; reflexivity).
  split; [exact H|].
  destruct (channels_balance _ _ H) as [_ Hb].
  split; [vm_compute; reflexivity|].
  vm_compute in Hb. vm_compute. congruence.
Defined.

(** X15. The pending sources are kept as a set of sources that really
    play: in every state the component reaches they are pairwise
    distinct, each of them was started, and no source identity was ever
    started twice. *)
Theorem pending_sources_distinct (evs : list Event) (st : State) :
  run initial evs = Some st ->
  NoDup (audioSourcesRef st)
  /\ (forall s, s ∈ audioSourcesRef st -> s ∈ started (trace st))
  /\ NoDup (started (trace st)).
Proof.
  intros Hrun.
  destruct (run_invariant _ _ _ initial_invariant Hrun) as (_ & _ & H3 & H4 & _ & H6).
  repeat split; assumption.
Qed.

Lemma pending_sources_distinct_witness :
  run initial ([Mount; ToggleCamera true; ClickSession; OnOpen]
               ++ message_events two_clips ++ [SourceEnded 0])
  = Some (state_after ([Mount; ToggleCamera true; ClickSession; OnOpen]
                       ++ message_events two_clips ++ [SourceEnded 0]))
  /\ NoDup (audioSourcesRef
              (state_after ([Mount; ToggleCamera true; ClickSession; OnOpen]
                            ++ message_events two_clips ++ [SourceEnded 0]))).
Proof.
  assert (H : run initial ([Mount; ToggleCamera true; ClickSession; OnOpen]
                           ++ message_events two_clips ++ [SourceEnded 0])
              = Some (state_after ([Mount; ToggleCamera true; ClickSession; OnOpen]
                                   ++ message_events two_clips ++ [SourceEnded 0])))
    by (vm_compute; reflexivity).
  split; [exact H|]. exact (proj1 (pending_sources_distinct _ _ H)).
Defined.

(** ** The HUD overlay and the fault indicator *)

Lemma overlay_parts_sublist (l : list (string * HighlightData)) :
  overlay_part <$> omap overlay_of l `sublist_of` l.*1.
Proof.
  induction l as [|[part data] l IH]; [constructor|].
  cbn [omap fmap list_fmap list_omap]. unfold overlay_of at 1. cbn [fst snd].
  destruct (ANATOMY_MAP_get part) as [found|].
  - cbn. now constructor.
  - now constructor.
Qed.

Lemma ANATOMY_MAP_regions part box :
  ANATOMY_MAP !! part = Some box ->
  part ∈ ["spine"; "knees"; "shoulders"; "head"; "core"].
Proof.
  intros E. assert (Hdom : part ∈ dom ANATOMY_MAP) by (apply elem_of_dom; eauto).
  revert Hdom. unfold ANATOMY_MAP. rewrite dom_list_to_map_L.
  cbn. rewrite !elem_of_union, !elem_of_singleton, !elem_of_cons. set_solver.
Qed.

Lemma rects_among_regions (l : list Overlay) (regions : list string) :
  (forall o, o ∈ l -> is_Some (overlay_rect o) -> overlay_part o ∈ regions) ->
  (length (omap overlay_rect l)
   <= length (filter (fun part => part ∈ regions) (overlay_part <$> l)))%nat.
Proof.
  induction l as [|o l IH]; intros H; [cbn; lia|].
  assert (IH' := IH (fun o' Ho' => H o' (list_elem_of_further _ _ _ Ho'))).
  cbn [omap list_omap fmap list_fmap]. rewrite filter_cons.
  destruct (overlay_rect o) as [rect|] eqn:E.
  - rewrite decide_True by (apply H; [apply list_elem_of_here | rewrite E; eauto]).
    cbn. lia.
  - destruct (decide _); cbn; lia.
Qed.

Lemma overlay_of_spec part data o :
  overlay_of (part, data) = Some o
  <-> overlay_part o = part
      /\ overlay_color o = status_color (status data)
      /\ match ANATOMY_MAP !! part with
         | Some box => overlay_rect o = Some (percent box)
         | None => part ∈ Object_prototype /\ overlay_rect o = None
         end.
Proof.
  unfold overlay_of, ANATOMY_MAP_get. cbn [fst snd].
  destruct (ANATOMY_MAP !! part) as [box|].
  - split.
    + intros [= <-]. auto.
    + intros (<- & Hc & Hr). destruct o. cbn in *. now subst.
  - destruct (bool_decide (part ∈ Object_prototype)) eqn:E.
    + apply bool_decide_eq_true_1 in E. split.
      * intros [= <-]. auto.
      * intros (<- & Hc & _ & Hr). destruct o. cbn in *. now subst.
    + apply bool_decide_eq_false_1 in E. split; [discriminate|].
      intros (_ & _ & Hin & _). contradiction.
Qed.

(** X16. The overlay draws one group for each stored annotation whose
    part the anatomy map resolves: with the box of the region, in
    percent, and the colour of its status when the part is one of the
    five regions, and without usable coordinates when the part is a name
    that every object inherits.  Annotations of other parts are stored
    but not drawn; the groups have distinct keys, and at most five of
    them have a box. *)
Theorem HUDOverlay_items (h : gmap string HighlightData) :
  NoDup (overlay_part <$> HUDOverlay h)
  /\ (length (omap overlay_rect (HUDOverlay h)) <= 5)%nat
  /\ (forall o,
        o ∈ HUDOverlay h
        <-> exists data,
              h !! overlay_part o = Some data
              /\ overlay_color o = status_color (status data)
              /\ match ANATOMY_MAP !! overlay_part o with
                 | Some box => overlay_rect o = Some (percent box)
                 | None => overlay_part o ∈ Object_prototype /\ overlay_rect o = None
                 end)
  /\ (forall data, HUDOverlay {[ "elbows" := data ]} = [])
  /\ (forall data,
        HUDOverlay {[ "knees" := data ]}
        = [mkOverlay "knees" (status_color (status data))
             (Some (mkBox (0.35 * 100) (0.65 * 100) (0.3 * 100) (0.2 * 100))%Q)])
  /\ forall data,
       HUDOverlay {[ "constructor" := data ]}
       = [mkOverlay "constructor" (status_color (status data)) None].
Proof.
  assert (Hitems : forall o,
            o ∈ HUDOverlay h
            <-> exists data,
                  h !! overlay_part o = Some data
                  /\ overlay_color o = status_color (status data)
                  /\ match ANATOMY_MAP !! overlay_part o with
                     | Some box => overlay_rect o = Some (percent box)
                     | None => overlay_part o ∈ Object_prototype
                               /\ overlay_rect o = None
                     end).
  { intros o. unfold HUDOverlay. rewrite list_elem_of_omap. split.
    - intros ([part data] & Hin & Hov). apply elem_of_map_to_list in Hin.
      apply overlay_of_spec in Hov as (<- & Hc & Hr). eauto.
    - intros (data & Hh & Hc & Hr). exists (overlay_part o, data). split.
      + now apply elem_of_map_to_list.
      + apply overlay_of_spec. auto. }
  assert (Hkeys : NoDup (overlay_part <$> HUDOverlay h)).
  { eapply sublist_NoDup; [|apply overlay_parts_sublist].
    apply NoDup_fst_map_to_list. }
  split; [exact Hkeys|]. split; [|split; [exact Hitems|]].
  - etransitivity;
      [apply (rects_among_regions _ ["spine"; "knees"; "shoulders"; "head"; "core"])|].
    + intros o Ho [rect Hrect]. apply Hitems in Ho as (data & _ & _ & Hr).
      destruct (ANATOMY_MAP !! overlay_part o) as [box|] eqn:E.
      * eapply ANATOMY_MAP_regions; eassumption.
      * destruct Hr as [_ Hr]. congruence.
    + change 5%nat with (length ["spine"; "knees"; "shoulders"; "head"; "core"]).
      apply submseteq_length, NoDup_submseteq.
      * now apply NoDup_filter.
      * intros part Hin. apply list_elem_of_filter in Hin as [Hin _]. exact Hin.
  - repeat split; intros data; unfold HUDOverlay; rewrite map_to_list_singleton;
      reflexivity.
Qed.

